(** * PowerDNS provider for libdns: the record-set planners

    A shallow embedding of the Go package [powerdns]
    (client.go: [NewClient], [updateRRs], [mergeRRecs], [cullRRecs],
    [removeRecords], [convertHash], [key], [makeLDRecHash], [shortZone],
    [zoneID], [fullZone]; provider.go: [client], [GetRecords],
    [AppendRecords], [SetRecords], [DeleteRecords]).

    Go slices of [zones.Record] are modelled with their headers and their
    backing arrays in an explicit store, because [removeRecords] works in
    place on the array it shares with the zone it was handed.  Everything
    else ([libdns.Record] buckets, descriptor lists, comments) is only ever
    built by [append] on a value nobody else holds, or only read, and is
    carried by value. *)

From Stdlib Require Import ZArith Ascii String.
From Stdlib Require Import Floats.SpecFloat.
From stdpp Require Import base option list strings gmap fin_maps.

(** ** Slice headers *)

(** A slice header: backing array, offset of the first element in it,
    length, capacity.  [nil_slice] is Go's [nil]. *)
Inductive slice : Type :=
| nil_slice
| Slice (base off len cap : nat).

Definition slen (s : slice) : nat :=
  match s with nil_slice => 0 | Slice _ _ l _ => l end.

Definition scap (s : slice) : nat :=
  match s with nil_slice => 0 | Slice _ _ _ c => c end.

(** ** Types of the two libraries the package is written against *)

(** github.com/mittwald/go-powerdns/apis/zones (declarations only; the
    fields the package touches). *)
Module zones.

Record Record_ : Type := mkRecord
  { Content : string; Disabled : bool; SetPTR : bool }.

Record Comment : Type := mkComment
  { CContent : string; Account : string; ModifiedAt : Z }.

(** [RecordSetChangeType]; [ChangeTypeUnset] is the zero value of a
    descriptor whose change type was never assigned. *)
Inductive RecordSetChangeType : Type :=
| ChangeTypeUnset
| ChangeTypeDelete
| ChangeTypeReplace.

(** The zero value of [zones.Record]. *)
Definition zeroRecord : Record_ := mkRecord EmptyString false false.

Record ResourceRecordSet : Type := mkResourceRecordSet
  { Name : string; Type_ : string; TTL : Z;
    ChangeType : RecordSetChangeType;
    Records : slice;
    Comments : list Comment }.

Record Zone : Type := mkZone
  { ID : string; ZName : string;
    ResourceRecordSets : list ResourceRecordSet }.

End zones.

(** github.com/libdns/libdns: [Record]; [TTL] is a [time.Duration], a
    signed 64-bit count of nanoseconds. *)
Module libdns.

Record Record_ : Type := mkRecord
  { ID : string; Type_ : string; Name : string; Value : string;
    TTL : Z; Priority : Z }.

End libdns.

#[global] Instance zones_Record_eq_dec : EqDecision zones.Record_.
Proof. solve_decision. Defined.

(** ** The store *)

(** The store: one entry per backing array, addressed by position, and the
    state of everything outside the process (the PowerDNS server). *)
Record state {World : Type} : Type := State
  { heap : list (list zones.Record_); world : World }.
Arguments state : clear implicits.
Arguments State {World} heap world.

Section Memory.
Context {World : Type}.

(** Computations that read and write the store and may panic ([None]). *)
Definition M (A : Type) : Type := state World → option (A * state World).

Definition ret {A} (a : A) : M A := λ σ, Some (a, σ).

Definition bind {A B} (m : M A) (f : A → M B) : M B :=
  λ σ, match m σ with Some (a, σ') => f a σ' | None => None end.

Definition panic {A} : M A := λ _, None.

(** The array behind [b]; an address outside the store reads as empty
    (no header built by the operations below points there). *)
Definition array (h : list (list zones.Record_)) (b : nat) : list zones.Record_ :=
  default [] (h !! b).

(** The elements a slice shows: [s[0], ..., s[len(s)-1]]. *)
Definition sread (h : list (list zones.Record_)) (s : slice) : list zones.Record_ :=
  match s with
  | nil_slice => []
  | Slice b o l _ => take l (drop o (array h b))
  end.

Definition swrite (h : list (list zones.Record_)) (s : slice)
    (vals : list zones.Record_) : list (list zones.Record_) :=
  match s with
  | nil_slice => h
  | Slice b o _ _ => alter (list_inserts o vals) b h
  end.

Definition with_heap (σ : state World) (h : list (list zones.Record_)) : state World :=
  State h (world σ).

(** [range s]: the elements, read once. *)
Definition range_slice (s : slice) : M (list zones.Record_) :=
  λ σ, Some (sread (heap σ) s, σ).

(** [s[i]]; panics when [i] is not below [len(s)]. *)
Definition index (s : slice) (i : nat) : M zones.Record_ :=
  λ σ, if decide (i < slen s)
       then Some (default zones.zeroRecord (sread (heap σ) s !! i), σ)
       else None.

(** [s[lo:hi]]; panics unless [lo <= hi <= cap(s)]. *)
Definition reslice (s : slice) (lo hi : nat) : M slice :=
  if decide (lo ≤ hi ∧ hi ≤ scap s)
  then ret (match s with
            | nil_slice => nil_slice
            | Slice b o _ c => Slice b (o + lo) (hi - lo) (c - lo)
            end)
  else panic.

(** [s[lo:]] is [s[lo:len(s)]] and [s[:hi]] is [s[0:hi]]. *)
Definition reslice_from (s : slice) (lo : nat) : M slice := reslice s lo (slen s).
Definition reslice_to (s : slice) (hi : nat) : M slice := reslice s 0 hi.

(** [copy(dst, src)]: [min(len(dst), len(src))] elements, the source
    read before the destination is written (the two may overlap). *)
Definition copy (dst src : slice) : M nat :=
  λ σ, let n := slen dst `min` slen src in
       Some (n, with_heap σ (swrite (heap σ) dst (take n (sread (heap σ) src)))).

(** [make([]zones.Record, n)]. *)
Definition make (n : nat) : M slice :=
  λ σ, Some (Slice (length (heap σ)) 0 n n,
             with_heap σ (heap σ ++ [replicate n zones.zeroRecord])).

(** How much room beyond the needed length the runtime gives a grown
    array is its own business. *)
Variable growslack : nat → nat.

(** [append(s, x)]: in place when the capacity allows, otherwise into a
    new array. *)
Definition grow (s : slice) (x : zones.Record_) : M slice :=
  λ σ, let n := S (slen s) in
       Some (Slice (length (heap σ)) 0 n (n + growslack n),
             with_heap σ (heap σ ++ [sread (heap σ) s ++ x
                                     :: replicate (growslack n) zones.zeroRecord])).

Definition append (s : slice) (x : zones.Record_) : M slice :=
  match s with
  | Slice b o l c =>
      if decide (l < c)
      then λ σ, Some (Slice b o (S l) c,
                      with_heap σ (alter (<[o + l := x]>) b (heap σ)))
      else grow s x
  | nil_slice => grow s x
  end.

End Memory.

Notation "'let*' x := e 'in' k" := (bind e (λ x, k))
  (at level 10, x pattern, e at level 100, k at level 200).

(** ** Errors *)

(** Go [error] values.  An error is the value it was made as, so it is
    told apart by where it was made: inside go-powerdns (a failed request, a
    failed client construction), carried here with its message, or in this
    package, by [fmt.Errorf]. *)
Inductive error : Type :=
| LibraryError (msg : string)
| Errorf (msg : string).

(** A [(value, error)] pair of results, over the errors [E]. *)
Inductive result_of (E A : Type) : Type :=
| Ok (a : A)
| Err (e : E).
Arguments Ok {E A} a.
Arguments Err {E A} e.

(** What a call into go-powerdns returns, and what this package returns. *)
Abbreviation library_result := (result_of string).
Abbreviation result := (result_of error).

(** ** [time.Duration] *)

Definition Second : Z := 1000000000.

(** Two's-complement wrap-around of a 64-bit signed integer. *)
Definition wrap64 (z : Z) : Z := (z + 2 ^ 63) `mod` 2 ^ 64 - 2 ^ 63.

(** Conversion of an integer to [float64] (round to nearest even). *)
Definition float64_of_Z (z : Z) : spec_float := binary_normalize 53 1024 z 0 false.

(** [d.Seconds()]: [float64(d / Second) + float64(d % Second) / 1e9]. *)
Definition Duration_Seconds (d : Z) : spec_float :=
  SFadd 53 1024 (float64_of_Z (Z.quot d Second))
    (SFdiv 53 1024 (float64_of_Z (Z.rem d Second)) (float64_of_Z 1000000000)).

(** [int(f)] for a finite [f]: the fraction is discarded. *)
Definition int_of_float64 (f : spec_float) : Z :=
  match f with
  | S754_finite s m e =>
      let v := if (0 <=? e)%Z then (Z.pos m * 2 ^ e)%Z else (Z.pos m / 2 ^ (- e))%Z in
      if s then (- v)%Z else v
  | _ => 0%Z
  end.

(** [int(d.Seconds())], the TTL a descriptor gets from a desired record. *)
Definition ttl_seconds (d : Z) : Z := int_of_float64 (Duration_Seconds d).

(** [time.Second * time.Duration(ttl)], in 64-bit arithmetic. *)
Definition duration_of_ttl (ttl : Z) : Z := wrap64 (Second * ttl).

(** ** Grouping *)

(** [key] *)
Definition key (Name Type_ : string) : string := Name +:+ ":" +:+ Type_.

(** [makeLDRecHash]: [inHash[k] = append(inHash[k], r)] for every record in
    turn; a key not yet in the map reads as the empty bucket. *)
Definition makeLDRecHash (records : list libdns.Record_)
    : gmap string (list libdns.Record_) :=
  foldl (λ inHash r,
           let k := key (libdns.Name r) (libdns.Type_ r) in
           <[k := default [] (inHash !! k) ++ [r]]> inHash)
        ∅ records.

(** Field assignments on a [zones.ResourceRecordSet]. *)
Definition set_Records (rr : zones.ResourceRecordSet) (s : slice)
    : zones.ResourceRecordSet :=
  zones.mkResourceRecordSet (zones.Name rr) (zones.Type_ rr) (zones.TTL rr)
    (zones.ChangeType rr) s (zones.Comments rr).

Definition set_ChangeType (rr : zones.ResourceRecordSet)
    (c : zones.RecordSetChangeType) : zones.ResourceRecordSet :=
  zones.mkResourceRecordSet (zones.Name rr) (zones.Type_ rr) (zones.TTL rr)
    c (zones.Records rr) (zones.Comments rr).

Definition set_TTL (rr : zones.ResourceRecordSet) (ttl : Z) : zones.ResourceRecordSet :=
  zones.mkResourceRecordSet (zones.Name rr) (zones.Type_ rr) ttl
    (zones.ChangeType rr) (zones.Records rr) (zones.Comments rr).

Definition set_Comments (rr : zones.ResourceRecordSet) (cs : list zones.Comment)
    : zones.ResourceRecordSet :=
  zones.mkResourceRecordSet (zones.Name rr) (zones.Type_ rr) (zones.TTL rr)
    (zones.ChangeType rr) (zones.Records rr) cs.

Section Planners.
Context {World : Type}.
Variable growslack : nat → nat.

(** The order in which a [range] over the grouping map visits its
    entries; Go leaves it unspecified. *)
Variable range_order :
  gmap string (list libdns.Record_) → list (string * list libdns.Record_).

Local Abbreviation M := (@M World).

(** *** [convertHash] *)

(** The inner loop: every value of the bucket is appended. *)
Fixpoint convert_values (recs : list libdns.Record_) (s : slice) : M slice :=
  match recs with
  | [] => ret s
  | rec :: recs' =>
      let* s' := append growslack s (zones.mkRecord (libdns.Value rec) false false) in
      convert_values recs' s'
  end.

Fixpoint convertHash_loop (groups : list (string * list libdns.Record_))
    (rrsets : list zones.ResourceRecordSet) : M (list zones.ResourceRecordSet) :=
  match groups with
  | [] => ret rrsets
  | (_, recs) :: groups' =>
      match recs with
      | [] => convertHash_loop groups' rrsets
      | r0 :: _ =>
          let* s := convert_values recs nil_slice in
          convertHash_loop groups'
            (rrsets ++ [zones.mkResourceRecordSet
                          (libdns.Name r0) (libdns.Type_ r0)
                          (ttl_seconds (libdns.TTL r0))
                          zones.ChangeTypeReplace s []])
      end
  end.

Definition convertHash (inHash : gmap string (list libdns.Record_))
    : M (list zones.ResourceRecordSet) :=
  convertHash_loop (range_order inHash) [].

(** *** [mergeRRecs] *)

(** [dupes[v]]: a missing key reads as [false]. *)
Definition is_dupe (dupes : gmap string bool) (v : string) : bool :=
  default false (dupes !! v).

(** [for _, prec := range t.Records { dupes[prec.Content] = true }] *)
Definition mark_existing (precs : list zones.Record_) (dupes : gmap string bool)
    : gmap string bool :=
  foldl (λ d prec, <[zones.Content prec := true]> d) dupes precs.

(** The additions: a value is appended unless it is marked. *)
Fixpoint merge_additions (recs : list libdns.Record_) (s : slice)
    (dupes : gmap string bool) : M (slice * gmap string bool) :=
  match recs with
  | [] => ret (s, dupes)
  | rec :: recs' =>
      if is_dupe dupes (libdns.Value rec)
      then merge_additions recs' s dupes
      else
        let* s' := append growslack s (zones.mkRecord (libdns.Value rec) false false) in
        merge_additions recs' s' (<[libdns.Value rec := true]> dupes)
  end.

Fixpoint mergeRRecs_loop (ts : list zones.ResourceRecordSet)
    (inHash : gmap string (list libdns.Record_))
    (rrsets : list zones.ResourceRecordSet)
    : M (list zones.ResourceRecordSet * gmap string (list libdns.Record_)) :=
  match ts with
  | [] => ret (rrsets, inHash)
  | t :: ts' =>
      let k := key (zones.Name t) (zones.Type_ t) in
      match inHash !! k with
      | Some ((r0 :: _) as recs) =>
          let rr := zones.mkResourceRecordSet
                      (zones.Name t) (zones.Type_ t)
                      (ttl_seconds (libdns.TTL r0))
                      zones.ChangeTypeReplace nil_slice (zones.Comments t) in
          (* rr.Records = make([]zones.Record, len(rr.Records)) *)
          let* s0 := make (slen (zones.Records rr)) in
          let rr := set_Records rr s0 in
          (* copy(rr.Records, t.Records) *)
          let* _ := copy (zones.Records rr) (zones.Records t) in
          let* precs := range_slice (zones.Records t) in
          let dupes := mark_existing precs ∅ in
          let* (s, _) := merge_additions recs (zones.Records rr) dupes in
          let rr := set_Records rr s in
          mergeRRecs_loop ts' (delete k inHash) (rrsets ++ [rr])
      | _ => mergeRRecs_loop ts' inHash rrsets
      end
  end.

(** The error result of [mergeRRecs] is always [nil]; it is the second
    component, [None]. *)
Definition mergeRRecs (fullZone : zones.Zone) (records : list libdns.Record_)
    : M (list zones.ResourceRecordSet * option error) :=
  let inHash := makeLDRecHash records in
  let* (rrsets, inHash') := mergeRRecs_loop (zones.ResourceRecordSets fullZone) inHash [] in
  let* created := convertHash inHash' in
  ret (rrsets ++ created, None).

(** *** [removeRecords] *)

(** The loop of [deleteItem], [n] standing for [i + 1]. *)
Fixpoint deleteItem_loop (item : string) (n : nat) (recs : slice) : M slice :=
  match n with
  | 0 => ret recs
  | S i =>
      let* r := index recs i in
      if decide (zones.Content r = item)
      then
        (* copy(recs[i:], recs[:i+1]) *)
        let* dst := reslice_from recs i in
        let* src := reslice_to recs (i + 1) in
        let* _ := copy dst src in
        (* recs = recs[:len(recs)-1] *)
        let* recs' := match slen recs with
                      | 0 => panic
                      | S m => reslice_to recs m
                      end in
        deleteItem_loop item i recs'
      else deleteItem_loop item i recs
  end.

Definition deleteItem (rRSet : zones.ResourceRecordSet) (item : string) : M slice :=
  let recs := zones.Records rRSet in
  deleteItem_loop item (slen recs) recs.

Fixpoint removeRecords (rRSet : zones.ResourceRecordSet)
    (culls : list libdns.Record_) : M zones.ResourceRecordSet :=
  match culls with
  | [] => ret rRSet
  | c :: culls' =>
      let* recs := deleteItem rRSet (libdns.Value c) in
      removeRecords (set_Records rRSet recs) culls'
  end.

(** *** [cullRRecs] *)

Fixpoint cullRRecs_loop (ts : list zones.ResourceRecordSet)
    (inHash : gmap string (list libdns.Record_))
    (rRSets : list zones.ResourceRecordSet) : M (list zones.ResourceRecordSet) :=
  match ts with
  | [] => ret rRSets
  | t :: ts' =>
      let k := key (zones.Name t) (zones.Type_ t) in
      match inHash !! k with
      | Some ((_ :: _) as recs) =>
          let rRec := zones.mkResourceRecordSet (zones.Name t) (zones.Type_ t) 0
                        zones.ChangeTypeUnset nil_slice [] in
          let* rr := removeRecords t recs in
          let rRec :=
            if decide (slen (zones.Records rr) = 0)
            then set_ChangeType rRec zones.ChangeTypeDelete
            else set_Comments
                   (set_TTL (set_ChangeType rRec zones.ChangeTypeReplace) (zones.TTL t))
                   (zones.Comments t) in
          cullRRecs_loop ts' inHash (rRSets ++ [rRec])
      | _ => cullRRecs_loop ts' inHash rRSets
      end
  end.

Definition cullRRecs (fullZone : zones.Zone) (records : list libdns.Record_)
    : M (list zones.ResourceRecordSet) :=
  cullRRecs_loop (zones.ResourceRecordSets fullZone) (makeLDRecHash records) [].

End Planners.

(** ** The client and the provider *)

(** The methods of go-powerdns' [zones.Client] the package calls.  They
    talk to the server, and decode what it answers into the store. *)
Record ZonesClient {World : Type} : Type := mkZonesClient
  { ListZone : string → string → @M World (library_result (list zones.Zone));
    GetZone : string → string → @M World (library_result zones.Zone);
    AddRecordSetToZone :
      string → string → zones.ResourceRecordSet → @M World (option string) }.
Arguments ZonesClient : clear implicits.
Arguments mkZonesClient {World} ListZone GetZone AddRecordSetToZone.

(** [Client]: the server ID and the embedded [pdns.Client], of which only
    [Zones()] is used. *)
Record Client {World : Type} : Type := mkClient
  { sID : string; Zones : ZonesClient World }.
Arguments Client : clear implicits.
Arguments mkClient {World} sID Zones.

(** [Provider], without its mutex. *)
Record Provider {World : Type} : Type := mkProvider
  { ServerURL : string; ServerID : string; APIToken : string;
    c : option (Client World) }.
Arguments Provider : clear implicits.
Arguments mkProvider {World} ServerURL ServerID APIToken c.

Section ClientAndProvider.
Context {World : Type}.

(** [pdns.New(pdns.WithBaseURL(url), pdns.WithAPIKeyAuthentication(token))] *)
Variable pdns_New : string → string → library_result (ZonesClient World).

Local Abbreviation M := (@M World).

(** [NewClient] *)
Definition NewClient (ServerID ServerURL APIToken : string) : result (Client World) :=
  match pdns_New ServerURL APIToken with
  | Err e => Err (LibraryError e)
  | Ok zc => Ok (mkClient ServerID zc)
  end.

(** [shortZone] *)
Definition shortZone (c : Client World) (zoneName : string) : M (result zones.Zone) :=
  let zc := Zones c in
  let* r := ListZone zc (sID c) zoneName in
  match r with
  | Err e => ret (Err (LibraryError e))
  | Ok pzones =>
      if decide (length pzones ≠ 1)
      then ret (Err (Errorf "zone not found"))
      else match pzones with
           | z :: _ => ret (Ok z)
           | [] => panic
           end
  end.

(** [zoneID] *)
Definition zoneID (c : Client World) (zoneName : string) : M (result string) :=
  let* r := shortZone c zoneName in
  match r with
  | Err e => ret (Err e)
  | Ok shortZone => ret (Ok (zones.ID shortZone))
  end.

(** [fullZone] *)
Definition fullZone (c : Client World) (zoneName : string) : M (result zones.Zone) :=
  let zc := Zones c in
  let* r := shortZone c zoneName in
  match r with
  | Err e => ret (Err e)
  | Ok shortZone =>
      let* r := GetZone zc (sID c) (zones.ID shortZone) in
      match r with
      | Err e => ret (Err (LibraryError e))
      | Ok pzone => ret (Ok pzone)
      end
  end.

(** [Provider.client]: the client is built on first use and kept. *)
Definition client (p : Provider World) : result (Client World) * Provider World :=
  match c p with
  | None =>
      match NewClient (ServerID p) (ServerURL p) (APIToken p) with
      | Err e => (Err e, mkProvider (ServerURL p) (ServerID p) (APIToken p) None)
      | Ok cl => (Ok cl, mkProvider (ServerURL p) (ServerID p) (APIToken p) (Some cl))
      end
  | Some cl => (Ok cl, p)
  end.

(** The inner loop of [GetRecords]: one record per value of the set. *)
Definition GetRecords_values (prec : zones.Zone) (rec : zones.ResourceRecordSet)
    (vs : list zones.Record_) (recs : list libdns.Record_) : list libdns.Record_ :=
  foldl (λ recs v,
           recs ++ [libdns.mkRecord (zones.ID prec) (zones.Type_ rec) (zones.Name rec)
                      (zones.Content v) (duration_of_ttl (zones.TTL rec)) 0])
        recs vs.

Fixpoint GetRecords_loop (prec : zones.Zone) (rrs : list zones.ResourceRecordSet)
    (recs : list libdns.Record_) : M (list libdns.Record_) :=
  match rrs with
  | [] => ret recs
  | rec :: rrs' =>
      let* vs := range_slice (zones.Records rec) in
      GetRecords_loop prec rrs' (GetRecords_values prec rec vs recs)
  end.

(** [Provider.GetRecords]; the second component is the provider
    afterwards. *)
Definition GetRecords (p : Provider World) (zone : string)
    : M (result (list libdns.Record_) * Provider World) :=
  let '(rc, p) := client p in
  match rc with
  | Err e => ret (Err e, p)
  | Ok c =>
      let* r := fullZone c zone in
      match r with
      | Err e => ret (Err e, p)
      | Ok prec =>
          let* recs := GetRecords_loop prec (zones.ResourceRecordSets prec) [] in
          ret (Ok recs, p)
      end
  end.

End ClientAndProvider.

(** ** Applying descriptors, and the three mutating operations *)

Section Mutations.
Context {World : Type}.
Variable growslack : nat → nat.
Variable range_order :
  gmap string (list libdns.Record_) → list (string * list libdns.Record_).
Variable pdns_New : string → string → library_result (ZonesClient World).

Local Abbreviation M := (@M World).

(** [updateRRs]: one [AddRecordSetToZone] per descriptor, in order, up to
    the first that fails. *)
Fixpoint updateRRs (c : Client World) (zoneID : string)
    (recs : list zones.ResourceRecordSet) : M (option error) :=
  match recs with
  | [] => ret None
  | rec :: recs' =>
      let* err := AddRecordSetToZone (Zones c) (sID c) zoneID rec in
      match err with
      | Some e => ret (Some (LibraryError e))
      | None => updateRRs c zoneID recs'
      end
  end.

(** [Provider.AppendRecords] *)
Definition AppendRecords (p : Provider World) (zone : string)
    (records : list libdns.Record_) : M (result (list libdns.Record_) * Provider World) :=
  let '(rc, p) := client pdns_New p in
  match rc with
  | Err e => ret (Err e, p)
  | Ok c =>
      let* r := fullZone c zone in
      match r with
      | Err e => ret (Err e, p)
      | Ok pZone =>
          let* (rrecs, err) := mergeRRecs growslack range_order pZone records in
          match err with
          | Some e => ret (Err e, p)
          | None =>
              let* err := updateRRs c (zones.ID pZone) rrecs in
              match err with
              | Some e => ret (Err e, p)
              | None => ret (Ok records, p)
              end
          end
      end
  end.

(** [Provider.SetRecords] *)
Definition SetRecords (p : Provider World) (zone : string)
    (records : list libdns.Record_) : M (result (list libdns.Record_) * Provider World) :=
  let '(rc, p) := client pdns_New p in
  match rc with
  | Err e => ret (Err e, p)
  | Ok c =>
      let* r := zoneID c zone in
      match r with
      | Err e => ret (Err e, p)
      | Ok zID =>
          let inHash := makeLDRecHash records in
          let* rRecs := convertHash growslack range_order inHash in
          let* err := updateRRs c zID rRecs in
          match err with
          | Some e => ret (Err e, p)
          | None => ret (Ok records, p)
          end
      end
  end.

(** [Provider.DeleteRecords] *)
Definition DeleteRecords (p : Provider World) (zone : string)
    (records : list libdns.Record_) : M (result (list libdns.Record_) * Provider World) :=
  let '(rc, p) := client pdns_New p in
  match rc with
  | Err e => ret (Err e, p)
  | Ok c =>
      let* r := fullZone c zone in
      match r with
      | Err e => ret (Err e, p)
      | Ok pZone =>
          let* rRSets := cullRRecs pZone records in
          let* err := updateRRs c (zones.ID pZone) rRSets in
          match err with
          | Some e => ret (Err e, p)
          | None => ret (Ok records, p)
          end
      end
  end.

End Mutations.

(** ** Vocabulary of the statements *)

(** The grouping key of a record set and of a desired record. *)
Definition rrkey (t : zones.ResourceRecordSet) : string :=
  key (zones.Name t) (zones.Type_ t).

Definition reckey (r : libdns.Record_) : string :=
  key (libdns.Name r) (libdns.Type_ r).

(** The value a desired record contributes to a descriptor. *)
Definition value_of (r : libdns.Record_) : zones.Record_ :=
  zones.mkRecord (libdns.Value r) false false.

(** The value lists a descriptor list shows in a store. *)
Definition descriptor_values (h : list (list zones.Record_))
    (ds : list zones.ResourceRecordSet) : list (list zones.Record_) :=
  map (λ d, sread h (zones.Records d)) ds.

(** A header the Go runtime can have produced over the store [h]: the
    length within the capacity, the capacity within the array. *)
Definition slice_ok (h : list (list zones.Record_)) (s : slice) : Prop :=
  match s with
  | nil_slice => True
  | Slice b o l c => l ≤ c ∧ ∃ arr, h !! b = Some arr ∧ o + c ≤ length arr
  end.

Definition zone_ok (h : list (list zones.Record_)) (z : zones.Zone) : Prop :=
  Forall (λ t, slice_ok h (zones.Records t)) (zones.ResourceRecordSets z).

(** The array a slice lives in, if any. *)
Definition base_of (s : slice) : option nat :=
  match s with nil_slice => None | Slice b _ _ _ => Some b end.

(** A slice whose array was allocated after the store was [h0]. *)
Definition fresh (h0 : list (list zones.Record_)) (s : slice) : Prop :=
  match s with nil_slice => True | Slice b _ _ _ => length h0 ≤ b end.

(** The record sets of a snapshot that are the first with their key. *)
Fixpoint first_per_key (ts : list zones.ResourceRecordSet)
    : list zones.ResourceRecordSet :=
  match ts with
  | [] => []
  | t :: ts' => t :: filter (λ t', rrkey t' ≠ rrkey t) (first_per_key ts')
  end.

(** Two desired records end up in the same bucket of the grouping map. *)
Definition same_bucket (records : list libdns.Record_) (r1 r2 : libdns.Record_) : Prop :=
  ∃ k bucket, makeLDRecHash records !! k = Some bucket ∧ r1 ∈ bucket ∧ r2 ∈ bucket.

(** No [':'] among the bytes of a string. *)
Fixpoint colon_free (s : string) : bool :=
  match s with
  | EmptyString => true
  | String a s' => negb (Ascii.eqb a ":") && colon_free s'
  end.

(** The range of a [time.Duration] that holds a whole number of seconds
    of this size without overflow. *)
Definition ttl_in_range (ttl : Z) : Prop :=
  (- 9223372036 ≤ ttl ≤ 9223372036)%Z.

(** [m], run from [σ], does not panic, and its result and final state
    satisfy [Q]. *)
Definition returns {World A} (m : @M World A) (σ : state World)
    (Q : A → state World → Prop) : Prop :=
  ∃ a σ', m σ = Some (a, σ') ∧ Q a σ'.

(** [σ'] has every array of [σ], unchanged, and maybe new ones after them. *)
Definition extends {World} (σ σ' : state World) : Prop :=
  heap σ `prefix_of` heap σ' ∧ world σ' = world σ.

(** [σ'] has the arrays of [σ], each of the length it had, and those
    outside [B] with the contents they had. *)
Definition touched {World} (B : nat → Prop) (σ σ' : state World) : Prop :=
  world σ' = world σ
  ∧ length (heap σ') = length (heap σ)
  ∧ (∀ b, length (array (heap σ') b) = length (array (heap σ) b))
  ∧ (∀ b, ¬ B b → heap σ' !! b = heap σ !! b).

(** [d] is the descriptor [convertHash] makes of a group: name, type and
    TTL of the group's first record, REPLACE, no comments, and the value of
    every record of the group, in order. *)
Definition converted (h : list (list zones.Record_))
    (group : string * list libdns.Record_) (d : zones.ResourceRecordSet) : Prop :=
  ∃ r0, head group.2 = Some r0
        ∧ zones.Name d = libdns.Name r0
        ∧ zones.Type_ d = libdns.Type_ r0
        ∧ zones.TTL d = ttl_seconds (libdns.TTL r0)
        ∧ zones.ChangeType d = zones.ChangeTypeReplace
        ∧ zones.Comments d = []
        ∧ slice_ok h (zones.Records d)
        ∧ sread h (zones.Records d) = map value_of group.2.

(** [d] is a descriptor [mergeRRecs] makes for the existing record set
    [t]: its name, type and comments, REPLACE, and the TTL of the first
    record of the bucket. *)
Definition merged (inHash : gmap string (list libdns.Record_))
    (t d : zones.ResourceRecordSet) : Prop :=
  zones.Name d = zones.Name t
  ∧ zones.Type_ d = zones.Type_ t
  ∧ zones.ChangeType d = zones.ChangeTypeReplace
  ∧ zones.Comments d = zones.Comments t
  ∧ ∃ r0 rs, inHash !! rrkey t = Some (r0 :: rs)
             ∧ zones.TTL d = ttl_seconds (libdns.TTL r0).

(** How many of the values have the content [item]. *)
Definition occurrences (item : string) (vals : list zones.Record_) : nat :=
  length (filter (λ r, zones.Content r = item) vals).

(** [d] is a descriptor [cullRRecs] makes for the record set [t]: its name
    and type, no value list, and either DELETE with nothing else set or
    REPLACE with the set's TTL and comments. *)
Definition culled (t d : zones.ResourceRecordSet) : Prop :=
  zones.Name d = zones.Name t
  ∧ zones.Type_ d = zones.Type_ t
  ∧ zones.Records d = nil_slice
  ∧ ((zones.ChangeType d = zones.ChangeTypeDelete
      ∧ zones.TTL d = 0%Z ∧ zones.Comments d = [])
     ∨ (zones.ChangeType d = zones.ChangeTypeReplace
        ∧ zones.TTL d = zones.TTL t ∧ zones.Comments d = zones.Comments t)).

(** The values the additions loop of [mergeRRecs] appends for a bucket,
    given the marks it starts from. *)
Fixpoint additions (dupes : gmap string bool) (recs : list libdns.Record_)
    : list zones.Record_ :=
  match recs with
  | [] => []
  | rec :: recs' =>
      if is_dupe dupes (libdns.Value rec)
      then additions dupes recs'
      else value_of rec :: additions (<[libdns.Value rec := true]> dupes) recs'
  end.

(** What pruning in place does to the store: only array [b] is written,
    and in it only the window of [len] elements from offset [o], whose
    elements afterwards are elements it had before, the first one being the
    one that was first. *)
Definition window_kept {World} (b o len : nat) (σ σ' : state World) : Prop :=
  world σ' = world σ
  ∧ length (heap σ') = length (heap σ)
  ∧ (∀ b', b' ≠ b → heap σ' !! b' = heap σ !! b')
  ∧ ∃ arr arr',
      heap σ !! b = Some arr ∧ heap σ' !! b = Some arr'
      ∧ length arr' = length arr
      ∧ (∀ j, j < len → ∃ j', j' < len ∧ arr' !! (o + j) = arr !! (o + j'))
      ∧ (∀ j, len ≤ j → arr' !! (o + j) = arr !! (o + j))
      ∧ arr' !! o = arr !! o.

(** [vals] is a value list [mergeRRecs] makes for a record set holding
    [existing] and a bucket: no content twice, values of the bucket in the
    bucket's order, none with a content the set already holds, and every
    other value of the bucket. *)
Definition merged_values (existing : list zones.Record_)
    (bucket : list libdns.Record_) (vals : list zones.Record_) : Prop :=
  NoDup (zones.Content <$> vals)
  ∧ vals `sublist_of` (value_of <$> bucket)
  ∧ (∀ v, v ∈ vals → zones.Content v ∉ zones.Content <$> existing)
  ∧ (∀ r, r ∈ bucket → libdns.Value r ∉ zones.Content <$> existing →
          value_of r ∈ vals).

(** In the store [h'] the descriptor [d] shows what the additions loop
    appends for the record set [t], whose values are read in [h0]. *)
Definition merge_appended (h0 h' : list (list zones.Record_))
    (inHash : gmap string (list libdns.Record_))
    (t d : zones.ResourceRecordSet) : Prop :=
  slice_ok h' (zones.Records d)
  ∧ ∃ bucket, inHash !! rrkey t = Some bucket
              ∧ sread h' (zones.Records d)
                = additions (mark_existing (sread h0 (zones.Records t)) ∅) bucket.

(** Modelled from the spec: the Zone Store's application of a descriptor
    to a zone (the server's side of [AddRecordSetToZone], which is not part
    of this package).  REPLACE makes the record set of that name and type
    hold exactly the descriptor's TTL, comments and values, creating it when
    the zone has none; DELETE removes it. *)
Definition same_set (d t : zones.ResourceRecordSet) : bool :=
  bool_decide (zones.Name t = zones.Name d ∧ zones.Type_ t = zones.Type_ d).

Definition applyRR (sets : list zones.ResourceRecordSet) (d : zones.ResourceRecordSet)
    : list zones.ResourceRecordSet :=
  match zones.ChangeType d with
  | zones.ChangeTypeDelete => filter (λ t, same_set d t = false) sets
  | zones.ChangeTypeReplace =>
      let t' := set_ChangeType d zones.ChangeTypeUnset in
      if existsb (same_set d) sets
      then map (λ t, if same_set d t then t' else t) sets
      else sets ++ [t']
  | zones.ChangeTypeUnset => sets
  end.

(** Modelled from the spec: the snapshot after a descriptor list has been
    applied, one descriptor after the other. *)
Definition applyRRs (z : zones.Zone) (ds : list zones.ResourceRecordSet) : zones.Zone :=
  zones.mkZone (zones.ID z) (zones.ZName z) (foldl applyRR (zones.ResourceRecordSets z) ds).

(** ** The inputs of the spec's examples *)

Module Examples.

Definition rec (content : string) : zones.Record_ :=
  zones.mkRecord content false false.

Definition desired (name type value : string) (ttl : Z) : libdns.Record_ :=
  libdns.mkRecord EmptyString type name value ttl 0.

(** A store holding one array. *)
Definition store {World} (w : World) (values : list zones.Record_) : state World :=
  State [values] w.

(** A zone with one record set showing the whole of array 0. *)
Definition zone1 (name type : string) (ttl : Z) (n : nat)
    (comments : list zones.Comment) : zones.Zone :=
  zones.mkZone "1" "example.org."
    [zones.mkResourceRecordSet name type ttl zones.ChangeTypeUnset
       (Slice 0 0 n n) comments].

(** Examples 1 to 3: [("www","A")] with values [["1.1.1.1"]], TTL 300. *)
Definition www_zone : zones.Zone := zone1 "www" "A" 300 1 [].
Definition www_values : list zones.Record_ := [rec "1.1.1.1"].

(** Example 4: [("mail","MX")] with values [["a","b"]]. *)
Definition mail_comments : list zones.Comment := [zones.mkComment "mx" "admin" 1].
Definition mail_zone : zones.Zone := zone1 "mail" "MX" 3600 2 mail_comments.
Definition mail_values : list zones.Record_ := [rec "a"; rec "b"].
Definition mail_set : zones.ResourceRecordSet :=
  zones.mkResourceRecordSet "mail" "MX" 3600 zones.ChangeTypeUnset
    (Slice 0 0 2 2) mail_comments.

(** A record set with three values. *)
Definition abc_zone : zones.Zone := zone1 "mail" "MX" 3600 3 [].
Definition abc_values : list zones.Record_ := [rec "a"; rec "b"; rec "c"].

End Examples.

(** A server that knows the zone of Examples 1 to 3 and answers every
    request with it. *)
Module ExampleServer.
Import Examples.

Definition zc : ZonesClient unit :=
  mkZonesClient
    (λ _ _, ret (Ok [zones.mkZone "1" "example.org." []]))
    (λ _ _, ret (Ok www_zone))
    (λ _ _ _, ret None).

Definition pdns_New (url token : string) : library_result (ZonesClient unit) := Ok zc.

Definition provider : Provider unit :=
  mkProvider "http://localhost:8081" "localhost" "secret" None.

End ExampleServer.

(** * Theorems *)

(** ** The planners on the spec's examples *)

Section OnExamples.
Import Examples.
Context {World : Type} (w : World).
Variable growslack : nat → nat.

(** C1, on the input of the spec's Example 1 (record set [("www","A")]
    with the value "1.1.1.1", desired value "2.2.2.2"): [mergeRRecs]
    returns one REPLACE descriptor with TTL 300 whose value list is
    ["2.2.2.2"] alone.  The existing value "1.1.1.1" is not in it: the
    list the additions are appended to was made with the length of the
    descriptor's own, still empty, list, so [copy] moved nothing. *)
Theorem mergeRRecs_example1_drops_existing :
  ∃ d σ',
    mergeRRecs growslack map_to_list www_zone
      [desired "www" "A" "2.2.2.2" 300000000000] (store w www_values)
      = Some (([d], None), σ')
    ∧ zones.Name d = "www" ∧ zones.Type_ d = "A"
    ∧ zones.ChangeType d = zones.ChangeTypeReplace
    ∧ zones.TTL d = 300%Z
    ∧ sread (heap (store w www_values)) (Slice 0 0 1 1) = [rec "1.1.1.1"]
    ∧ sread (heap σ') (zones.Records d) = [rec "2.2.2.2"]
    ∧ rec "1.1.1.1" ∉ sread (heap σ') (zones.Records d).
Proof.
  eexists _, _. split; [vm_compute; reflexivity|].
  repeat split. cbn. intros H. apply list_elem_of_singleton in H. discriminate.
Qed.

(** C2, on the input of the spec's Example 4 (record set [("mail","MX")]
    with values ["a","b"], cull "a"): [cullRRecs] returns one REPLACE
    descriptor carrying the set's TTL and comments, but its value list is
    nil, not the surviving ["b"]: the pruned list is only measured, never
    stored in the descriptor. *)
Theorem cullRRecs_example4_replace_has_no_values :
  ∃ d σ',
    cullRRecs mail_zone [desired "mail" "MX" "a" 0] (store w mail_values)
      = Some ([d], σ')
    ∧ zones.Name d = "mail" ∧ zones.Type_ d = "MX"
    ∧ zones.ChangeType d = zones.ChangeTypeReplace
    ∧ zones.TTL d = 3600%Z ∧ zones.Comments d = mail_comments
    ∧ zones.Records d = nil_slice
    ∧ sread (heap σ') (zones.Records d) = [].
Proof.
  eexists _, _. split; [vm_compute; reflexivity|]. repeat split.
Qed.

(** C3, on the values ["a","b"]: asked to remove "a", [removeRecords]
    returns ["a"] (the requested value stays, "b" is lost); asked to
    remove "a" twice it returns the empty list, so the repeat is not a
    no-op. *)
Theorem removeRecords_keeps_requested_value :
  (∃ rr σ',
     removeRecords mail_set [desired "mail" "MX" "a" 0] (store w mail_values)
       = Some (rr, σ')
     ∧ sread (heap σ') (zones.Records rr) = [rec "a"])
  ∧ (∃ rr σ',
       removeRecords mail_set
         [desired "mail" "MX" "a" 0; desired "mail" "MX" "a" 0]
         (store w mail_values)
         = Some (rr, σ')
       ∧ sread (heap σ') (zones.Records rr) = []).
Proof.
  split; eexists _, _; (split; [vm_compute; reflexivity|]); reflexivity.
Qed.

(** C5, on the input of the spec's Example 1: the first run of
    [mergeRRecs] gives the value list ["2.2.2.2"]; once that descriptor is
    applied the record set holds ["2.2.2.2"]; the second run with the same
    desired records gives a REPLACE descriptor with the empty value list. *)
Theorem mergeRRecs_second_run_empties_values :
  ∃ ds1 σ1 ds2 σ2,
    mergeRRecs growslack map_to_list www_zone
      [desired "www" "A" "2.2.2.2" 300000000000] (store w www_values)
      = Some ((ds1, None), σ1)
    ∧ mergeRRecs growslack map_to_list (applyRRs www_zone ds1)
        [desired "www" "A" "2.2.2.2" 300000000000] σ1
      = Some ((ds2, None), σ2)
    ∧ descriptor_values (heap σ1) ds1 = [[rec "2.2.2.2"]]
    ∧ descriptor_values (heap σ1) (zones.ResourceRecordSets (applyRRs www_zone ds1))
      = [[rec "2.2.2.2"]]
    ∧ map zones.ChangeType ds2 = [zones.ChangeTypeReplace]
    ∧ descriptor_values (heap σ2) ds2 = [[]].
Proof.
  eexists _, _, _, _.
  split; [vm_compute; reflexivity|].
  split; [vm_compute; reflexivity|].
  repeat split.
Qed.

(** Where the code and the spec's examples agree.  Example 3: culling
    the only value gives one DELETE descriptor. *)
Lemma cullRRecs_example3 :
  ∃ σ',
    cullRRecs www_zone [desired "www" "A" "1.1.1.1" 300000000000] (store w www_values)
    = Some ([zones.mkResourceRecordSet "www" "A" 0 zones.ChangeTypeDelete nil_slice []],
            σ').
Proof. eexists. vm_compute. reflexivity. Qed.

(** Example 5: a desired record of a new group gives one REPLACE
    descriptor with its name, type, TTL in seconds and value, no comments. *)
Lemma mergeRRecs_example5 :
  ∃ d σ',
    mergeRRecs growslack map_to_list www_zone
      [desired "new" "TXT" "hello" 60000000000] (store w www_values)
    = Some (([d], None), σ')
    ∧ zones.Name d = "new" ∧ zones.Type_ d = "TXT" ∧ zones.TTL d = 60%Z
    ∧ zones.ChangeType d = zones.ChangeTypeReplace ∧ zones.Comments d = []
    ∧ sread (heap σ') (zones.Records d) = [rec "hello"].
Proof. eexists _, _. split; [vm_compute; reflexivity|]. repeat split. Qed.

(** [int(d.Seconds())] goes through [float64]: it is the number of whole
    seconds for the durations of the examples, but not for every duration. *)
Lemma ttl_seconds_examples :
  ttl_seconds 300000000000 = 300%Z
  ∧ ttl_seconds 1999999999 = 1%Z
  ∧ ttl_seconds (16777216 * Second + 999999999) = 16777217%Z.
Proof. repeat split; vm_compute; reflexivity. Qed.

End OnExamples.

(** ** The grouping key and the grouping map *)

Lemma append_empty (s : string) : EmptyString +:+ s = s.
Proof. reflexivity. Qed.

Lemma append_String (a : ascii) (s t : string) : String a s +:+ t = String a (s +:+ t).
Proof. reflexivity. Qed.

Lemma colon_free_app_colon (a b : string) :
  colon_free (a +:+ String ":"%char b) = false.
Proof.
  induction a as [|x a IH]; [reflexivity|].
  rewrite append_String. simpl. rewrite IH. apply andb_false_r.
Qed.

Lemma key_inj_names n1 t1 n2 t2 :
  colon_free n1 = true → colon_free n2 = true →
  key n1 t1 = key n2 t2 → n1 = n2 ∧ t1 = t2.
Proof.
  unfold key. revert n2.
  induction n1 as [|a n1 IH]; intros [|b n2] H1 H2 E;
    rewrite ?append_String, ?append_empty in E; simpl in H1, H2.
  - by injection E as ->.
  - injection E as <- _. discriminate.
  - injection E as -> _. discriminate.
  - injection E as -> E. apply andb_prop in H1 as [_ H1]. apply andb_prop in H2 as [_ H2].
    destruct (IH n2 H1 H2 E) as [-> ->]. done.
Qed.

Lemma key_inj_types n1 t1 n2 t2 :
  colon_free t1 = true → colon_free t2 = true →
  key n1 t1 = key n2 t2 → n1 = n2 ∧ t1 = t2.
Proof.
  unfold key. revert n2.
  induction n1 as [|a n1 IH]; intros [|b n2] H1 H2 E;
    rewrite ?append_String, ?append_empty in E.
  - by injection E as ->.
  - injection E as <- E. rewrite E, colon_free_app_colon in H1. discriminate.
  - injection E as -> E. rewrite <- E, colon_free_app_colon in H2. discriminate.
  - injection E as -> E. destruct (IH n2 H1 H2 E) as [-> ->]. done.
Qed.

Lemma makeLDRecHash_snoc records r :
  makeLDRecHash (records ++ [r])
  = <[reckey r := default [] (makeLDRecHash records !! reckey r) ++ [r]]>
      (makeLDRecHash records).
Proof. unfold makeLDRecHash. by rewrite foldl_app. Qed.

(** What a bucket holds: the records of that key, in arrival order. *)
Lemma makeLDRecHash_lookup records k :
  makeLDRecHash records !! k
  = match filter (λ r, reckey r = k) records with
    | [] => None
    | bucket => Some bucket
    end.
Proof.
  induction records as [|r records IH] using rev_ind; [done|].
  rewrite makeLDRecHash_snoc, filter_app, lookup_insert.
  destruct (decide (reckey r = k)) as [Heq|Hne].
  - rewrite filter_cons_True by done. rewrite Heq, IH.
    destruct (filter _ records); done.
  - rewrite filter_cons_False by done. rewrite filter_nil, app_nil_r. apply IH.
Qed.

Lemma makeLDRecHash_Some records k bucket :
  makeLDRecHash records !! k = Some bucket ↔
  bucket ≠ [] ∧ bucket = filter (λ r, reckey r = k) records.
Proof.
  rewrite makeLDRecHash_lookup. destruct (filter _ records) as [|r0 b].
  - split; [done|]. by intros [? ->].
  - split; [by intros [= <-]|]. by intros [_ ->].
Qed.

Lemma makeLDRecHash_None records k :
  makeLDRecHash records !! k = None ↔ ∀ r, r ∈ records → reckey r ≠ k.
Proof.
  rewrite makeLDRecHash_lookup. destruct (filter _ records) as [|r0 b] eqn:E; split; try done.
  - intros _ r Hr Hk. assert (r ∈ filter (λ r, reckey r = k) records) as Hin
      by (apply list_elem_of_filter; done).
    rewrite E in Hin. by apply not_elem_of_nil in Hin.
  - intros H. assert (r0 ∈ filter (λ r, reckey r = k) records) as Hin
      by (rewrite E; left).
    apply list_elem_of_filter in Hin as [Hk Hin]. by destruct (H r0 Hin).
Qed.

Lemma same_bucket_iff records r1 r2 :
  r1 ∈ records → r2 ∈ records →
  same_bucket records r1 r2 ↔ reckey r1 = reckey r2.
Proof.
  intros H1 H2. split.
  - intros (k & b & Hb & Hr1 & Hr2). apply makeLDRecHash_Some in Hb as [_ ->].
    apply list_elem_of_filter in Hr1 as [-> _]. apply list_elem_of_filter in Hr2 as [-> _]. done.
  - intros E. exists (reckey r1), (filter (λ r, reckey r = reckey r1) records). split.
    + apply makeLDRecHash_Some. split; [|done].
      intros Hnil. assert (r1 ∈ filter (λ r, reckey r = reckey r1) records) as Hin
        by (apply list_elem_of_filter; done).
      rewrite Hnil in Hin. by apply not_elem_of_nil in Hin.
    + split; apply list_elem_of_filter; done.
Qed.

(** C8 as stated fails: [key] joins name and type with a [':'], so a name
    and a type that split the same text differently around a [':'] get one
    key, and [makeLDRecHash] puts two records that differ in both name and
    type into one bucket. *)
Lemma key_collision :
  key "a:b" "c" = key "a" "b:c"
  ∧ ¬ ("a:b" = "a" ∧ "c" = "b:c")
  ∧ same_bucket
      [Examples.desired "a:b" "c" "1" 0; Examples.desired "a" "b:c" "2" 0]
      (Examples.desired "a:b" "c" "1" 0) (Examples.desired "a" "b:c" "2" 0).
Proof.
  split; [reflexivity|]. split; [by intros [? _]|].
  exists "a:b:c", [Examples.desired "a:b" "c" "1" 0; Examples.desired "a" "b:c" "2" 0].
  split; [vm_compute; reflexivity|]. split; [left | right; left].
Qed.

(** C8, amended: for names that are both free of [':'], or types that are
    both free of [':'], [key n1 t1 = key n2 t2] exactly when [n1 = n2] and
    [t1 = t2] (equality of the bytes, nothing normalised); and two desired
    records with such names and types are in the same bucket of
    [makeLDRecHash] exactly when they agree on name and type. *)
Theorem key_exact_on_colon_free (n1 t1 n2 t2 : string) :
  colon_free n1 && colon_free n2 || colon_free t1 && colon_free t2 = true →
  (key n1 t1 = key n2 t2 ↔ n1 = n2 ∧ t1 = t2)
  ∧ ∀ records r1 r2,
      r1 ∈ records → r2 ∈ records →
      libdns.Name r1 = n1 → libdns.Type_ r1 = t1 →
      libdns.Name r2 = n2 → libdns.Type_ r2 = t2 →
      (same_bucket records r1 r2 ↔ n1 = n2 ∧ t1 = t2).
Proof.
  intros Hcf.
  assert (key n1 t1 = key n2 t2 ↔ n1 = n2 ∧ t1 = t2) as Hkey.
  { split; [|by intros [-> ->]].
    apply orb_prop in Hcf as [H|H]; apply andb_prop in H as [H1 H2].
    - by apply key_inj_names.
    - by apply key_inj_types. }
  split; [done|].
  intros records r1 r2 Hr1 Hr2 <- <- <- <-.
  rewrite same_bucket_iff by done. apply Hkey.
Qed.

(** The key is case sensitive: ["www"] and ["WWW"] are different names. *)
Lemma key_exact_on_colon_free_witness :
  (key "www" "A" = key "WWW" "A" ↔ "www" = "WWW" ∧ "A" = "A")
  ∧ ∀ records r1 r2,
      r1 ∈ records → r2 ∈ records →
      libdns.Name r1 = "www" → libdns.Type_ r1 = "A" →
      libdns.Name r2 = "WWW" → libdns.Type_ r2 = "A" →
      (same_bucket records r1 r2 ↔ "www" = "WWW" ∧ "A" = "A").
Proof. apply (key_exact_on_colon_free "www" "A" "WWW" "A"). reflexivity. Defined.

(** ** Zone resolution and listing *)

Section ClientFacts.
Context {World : Type}.
Implicit Types (c : Client World) (σ : state World).

(** C9: when the lookup [ListZone] answers, [shortZone] fails with its
    own "zone not found" error exactly when the answer holds no zone or
    more than one; when it holds exactly one zone, [shortZone] returns
    that zone and [zoneID] its ID; an error of the lookup itself is passed
    on unchanged. *)
Theorem shortZone_not_found_iff c zoneName σ r σ' :
  ListZone (Zones c) (sID c) zoneName σ = Some (r, σ') →
  ∃ r',
    shortZone c zoneName σ = Some (r', σ')
    ∧ (r' = Err (Errorf "zone not found")
       ↔ ∃ pzones, r = Ok pzones ∧ (length pzones = 0 ∨ 1 < length pzones))
    ∧ (∀ z, r = Ok [z] ↔ r' = Ok z)
    ∧ (∀ z, r = Ok [z] → zoneID c zoneName σ = Some (Ok (zones.ID z), σ'))
    ∧ (∀ e, r = Err e → r' = Err (LibraryError e)).
Proof.
  intros HL. unfold zoneID, shortZone, bind. rewrite HL.
  destruct r as [pzones|e].
  - destruct pzones as [|z [|z' pzones]]; cbn.
    + eexists. split; [done|]. split; [|done].
      split; [intros _; exists []; split; [done|by left]|done].
    + eexists. split; [done|]. split.
      { split; [done|]. intros (pz & [= <-] & [H|H]); cbn in H; lia. }
      split; [intros z0; split; by intros [= ->]|].
      split; [by intros z0 [= ->]|done].
    + eexists. split; [done|]. split.
      { split; [|done]. intros _. eexists. split; [done|]. right. cbn. lia. }
      done.
  - cbn. eexists. split; [done|]. split.
    { split; [done|]. by intros (pz & ? & _). }
    split; [done|]. split; [done|]. by intros e' [= ->].
Qed.

Lemma GetRecords_values_app prec rec vs recs :
  GetRecords_values prec rec vs recs
  = recs ++ map (λ v, libdns.mkRecord (zones.ID prec) (zones.Type_ rec) (zones.Name rec)
                        (zones.Content v) (duration_of_ttl (zones.TTL rec)) 0) vs.
Proof.
  unfold GetRecords_values. revert recs.
  induction vs as [|v vs IH]; intros recs; cbn; [by rewrite app_nil_r|].
  by rewrite IH, <- app_assoc.
Qed.

Lemma GetRecords_loop_flat prec rrs recs σ :
  GetRecords_loop prec rrs recs σ
  = Some (recs ++ flat_map
            (λ rec, map (λ v, libdns.mkRecord (zones.ID prec) (zones.Type_ rec)
                                (zones.Name rec) (zones.Content v)
                                (duration_of_ttl (zones.TTL rec)) 0)
                        (sread (heap σ) (zones.Records rec))) rrs, σ).
Proof.
  revert recs. induction rrs as [|rec rrs IH]; intros recs; cbn.
  - by rewrite app_nil_r.
  - unfold bind, range_slice. rewrite IH, GetRecords_values_app, <- app_assoc. done.
Qed.

Lemma duration_of_ttl_exact ttl :
  ttl_in_range ttl → duration_of_ttl ttl = (ttl * Second)%Z.
Proof.
  unfold ttl_in_range, duration_of_ttl, wrap64, Second. intros H.
  rewrite Z.mod_small by lia. lia.
Qed.

Variable pdns_New : string → string → library_result (ZonesClient World).

(** C10: when the client is there and [fullZone] returns the zone [prec],
    [GetRecords] returns, for every record set in turn and every value of
    it in turn, one record with the set's name and type and the value's
    content; each of them has the ID of the zone in [ID], 0 in [Priority],
    and for TTL the set's TTL times [time.Second] in 64-bit arithmetic,
    which is that many seconds whenever the product fits. *)
Theorem GetRecords_ID_Priority_TTL p zone σ c p' prec σ' :
  client pdns_New p = (Ok c, p') →
  fullZone c zone σ = Some (Ok prec, σ') →
  ∃ recs,
    GetRecords pdns_New p zone σ = Some ((Ok recs, p'), σ')
    ∧ recs = flat_map
               (λ rec, map (λ v, libdns.mkRecord (zones.ID prec) (zones.Type_ rec)
                                   (zones.Name rec) (zones.Content v)
                                   (duration_of_ttl (zones.TTL rec)) 0)
                           (sread (heap σ') (zones.Records rec)))
               (zones.ResourceRecordSets prec)
    ∧ Forall (λ r, libdns.ID r = zones.ID prec ∧ libdns.Priority r = 0%Z
                   ∧ ∃ rec, rec ∈ zones.ResourceRecordSets prec
                            ∧ libdns.Name r = zones.Name rec
                            ∧ libdns.Type_ r = zones.Type_ rec
                            ∧ libdns.TTL r = duration_of_ttl (zones.TTL rec)
                            ∧ (ttl_in_range (zones.TTL rec) →
                               libdns.TTL r = (zones.TTL rec * Second)%Z)) recs.
Proof.
  intros Hc Hz. eexists. split; [|split; [reflexivity|]].
  - unfold GetRecords. rewrite Hc. unfold bind. rewrite Hz.
    rewrite GetRecords_loop_flat. done.
  - apply Forall_forall. intros r Hr.
    apply list_elem_of_In, in_flat_map in Hr as (rec & Hrec & Hr).
    apply list_elem_of_In, list_elem_of_fmap in Hr as (v & -> & _).
    cbn. split; [done|]. split; [done|].
    exists rec. split; [by apply list_elem_of_In|].
    repeat split. apply duration_of_ttl_exact.
Qed.

End ClientFacts.

Lemma shortZone_not_found_iff_witness :
  ∃ r',
    shortZone (mkClient "localhost" ExampleServer.zc) "example.org."
      (Examples.store tt Examples.www_values)
    = Some (r', Examples.store tt Examples.www_values)
    ∧ r' = Ok (zones.mkZone "1" "example.org." [])
    ∧ r' ≠ Err (Errorf "zone not found").
Proof.
  destruct (shortZone_not_found_iff (mkClient "localhost" ExampleServer.zc)
              "example.org." (Examples.store tt Examples.www_values)
              (Ok [zones.mkZone "1" "example.org." []])
              (Examples.store tt Examples.www_values) eq_refl)
    as (r' & Hrun & _ & Hone & _).
  exists r'. split; [exact Hrun|].
  assert (r' = Ok (zones.mkZone "1" "example.org." [])) as -> by (apply Hone; reflexivity).
  split; [reflexivity | discriminate].
Defined.

Lemma GetRecords_ID_Priority_TTL_witness :
  ∃ recs,
    GetRecords ExampleServer.pdns_New ExampleServer.provider "example.org."
      (Examples.store tt Examples.www_values)
    = Some ((Ok recs,
             mkProvider "http://localhost:8081" "localhost" "secret"
               (Some (mkClient "localhost" ExampleServer.zc))),
            Examples.store tt Examples.www_values)
    ∧ recs = [libdns.mkRecord "1" "A" "www" "1.1.1.1" 300000000000 0].
Proof.
  destruct (GetRecords_ID_Priority_TTL ExampleServer.pdns_New ExampleServer.provider
              "example.org." (Examples.store tt Examples.www_values)
              (mkClient "localhost" ExampleServer.zc)
              (mkProvider "http://localhost:8081" "localhost" "secret"
                 (Some (mkClient "localhost" ExampleServer.zc)))
              Examples.www_zone (Examples.store tt Examples.www_values)
              eq_refl eq_refl) as (recs & Hrun & Hrecs & _).
  exists recs. split; [exact Hrun | exact Hrecs].
Defined.

(** ** Running a computation *)

Section Returns.
Context {World : Type}.
Implicit Types (σ : state World).

Lemma returns_ret {A} (a : A) σ (Q : A → state World → Prop) :
  Q a σ → returns (ret a) σ Q.
Proof. intros H. by exists a, σ. Qed.

Lemma returns_bind {A B} (m : M A) (f : A → M B) σ (Q : B → state World → Prop) :
  returns m σ (λ a σ', returns (f a) σ' Q) → returns (bind m f) σ Q.
Proof.
  intros (a & σ1 & Hm & b & σ2 & Hf & HQ). exists b, σ2.
  unfold bind. rewrite Hm. done.
Qed.

Lemma returns_mono {A} (m : M A) σ (Q Q' : A → state World → Prop) :
  returns m σ Q → (∀ a σ', Q a σ' → Q' a σ') → returns m σ Q'.
Proof. intros (a & σ1 & Hm & HQ) H. exists a, σ1. auto. Qed.

Lemma extends_refl σ : extends σ σ.
Proof. by split. Qed.

Lemma extends_trans σ1 σ2 σ3 : extends σ1 σ2 → extends σ2 σ3 → extends σ1 σ3.
Proof. intros [H1 W1] [H2 W2]. split; [by etrans | congruence]. Qed.

End Returns.

(** ** Slices in a growing store *)

Lemma prefix_alter_ge {A} (h0 h : list A) (f : A → A) (b : nat) :
  h0 `prefix_of` h → length h0 ≤ b → h0 `prefix_of` alter f b h.
Proof.
  intros [k ->] Hb. rewrite alter_app_r_alt by done. by apply prefix_app_r.
Qed.

Lemma slice_ok_prefix h h' s : h `prefix_of` h' → slice_ok h s → slice_ok h' s.
Proof.
  intros Hp. destruct s as [|b o l c]; [done|].
  intros (Hl & arr & Harr & Hc). split; [done|]. exists arr. split; [|done].
  by eapply prefix_lookup_Some.
Qed.

Lemma sread_prefix h h' s : h `prefix_of` h' → slice_ok h s → sread h' s = sread h s.
Proof.
  intros Hp. destruct s as [|b o l c]; [done|].
  intros (Hl & arr & Harr & Hc). unfold sread, array.
  by rewrite Harr, (prefix_lookup_Some _ _ _ _ Harr Hp).
Qed.

Lemma slice_ok_length h s : slice_ok h s → length (sread h s) = slen s.
Proof.
  destruct s as [|b o l c]; [done|].
  intros (Hl & arr & Harr & Hc). unfold sread, array. rewrite Harr. cbn.
  rewrite length_take, length_drop. lia.
Qed.

Lemma fresh_prefix h0 h s : h0 `prefix_of` h → fresh h s → fresh h0 s.
Proof.
  intros Hp. destruct s; [done|]. cbn. apply prefix_length in Hp. lia.
Qed.

Section Allocation.
Context {World : Type}.
Variable growslack : nat → nat.
Implicit Types (σ : state World).

Lemma make_returns n σ :
  returns (make n) σ
    (λ s σ', extends σ σ' ∧ fresh (heap σ) s ∧ slice_ok (heap σ') s ∧ slen s = n).
Proof.
  eexists _, _. split; [reflexivity|]. cbn.
  split; [split; [by apply prefix_app_r | done]|]. split; [done|].
  split; [|done]. split; [done|].
  exists (replicate n zones.zeroRecord). split.
  - by apply list_lookup_middle.
  - by rewrite length_replicate.
Qed.

Lemma copy_returns dst src σ0 σ :
  extends σ0 σ → fresh (heap σ0) dst → slice_ok (heap σ) dst →
  returns (copy dst src) σ (λ _ σ', extends σ0 σ' ∧ slice_ok (heap σ') dst).
Proof.
  intros [Hp Hw] Hf Hok. eexists _, _. split; [reflexivity|].
  destruct dst as [|b o l c]; cbn in *; [by split|].
  destruct Hok as (Hl & arr & Harr & Hc).
  split; [split; [by apply prefix_alter_ge | done]|]. split; [done|].
  eexists. split; [by rewrite list_lookup_alter_eq, Harr|].
  by rewrite length_inserts.
Qed.

Lemma grow_returns s x σ0 σ :
  extends σ0 σ → slice_ok (heap σ) s →
  returns (grow growslack s x) σ
    (λ s' σ', extends σ0 σ' ∧ fresh (heap σ0) s' ∧ slice_ok (heap σ') s'
              ∧ sread (heap σ') s' = sread (heap σ) s ++ [x]).
Proof.
  intros [Hp Hw] Hok. eexists _, _. split; [reflexivity|]. cbn.
  pose proof (slice_ok_length _ _ Hok) as Hlen.
  split; [split; [by apply prefix_app_r | done]|].
  split; [by apply prefix_length|].
  unfold array. rewrite list_lookup_middle by done. cbn. split.
  - split; [lia|]. eexists. split; [done|].
    rewrite length_app. cbn. rewrite length_replicate. cbn in Hlen. lia.
  - rewrite drop_0, (cons_middle x), app_assoc, take_app_length'; [done|].
    rewrite length_app. cbn. lia.
Qed.

Lemma append_returns s x σ0 σ :
  extends σ0 σ → fresh (heap σ0) s → slice_ok (heap σ) s →
  returns (append growslack s x) σ
    (λ s' σ', extends σ0 σ' ∧ fresh (heap σ0) s' ∧ slice_ok (heap σ') s'
              ∧ sread (heap σ') s' = sread (heap σ) s ++ [x]).
Proof.
  intros Hext Hf Hok. destruct s as [|b o l c]; cbn; [by apply grow_returns|].
  destruct (decide (l < c)) as [Hlt|Hge]; [|by apply grow_returns].
  destruct Hext as [Hp Hw]. destruct Hok as (Hl & arr & Harr & Hc).
  eexists _, _. split; [reflexivity|]. cbn in *.
  split; [split; [by apply prefix_alter_ge | done]|]. split; [done|].
  unfold array. rewrite list_lookup_alter_eq, Harr. cbn. split.
  - split; [lia|]. eexists. split; [done|]. by rewrite length_insert.
  - rewrite drop_insert_ge by lia. replace (o + l - o) with l by lia.
    erewrite take_S_r.
    + by rewrite take_insert_ge.
    + apply list_lookup_insert_eq. rewrite length_drop. lia.
Qed.

End Allocation.

(** ** [convertHash] *)

Lemma converted_prefix h h' g d : h `prefix_of` h' → converted h g d → converted h' g d.
Proof.
  intros Hp (r0 & H0 & Hn & Ht & Httl & Hc & Hcm & Hok & Hr).
  exists r0. repeat (split; [done|]). split; [by eapply slice_ok_prefix|].
  by rewrite (sread_prefix h h').
Qed.

Section ConvertFacts.
Context {World : Type}.
Variable growslack : nat → nat.
Implicit Types (σ : state World).

Lemma convert_values_returns recs : ∀ s σ0 σ,
  extends σ0 σ → fresh (heap σ0) s → slice_ok (heap σ) s →
  returns (convert_values growslack recs s) σ
    (λ s' σ', extends σ0 σ' ∧ fresh (heap σ0) s' ∧ slice_ok (heap σ') s'
              ∧ sread (heap σ') s' = sread (heap σ) s ++ map value_of recs).
Proof.
  induction recs as [|rec recs IH]; intros s σ0 σ Hext Hf Hok; cbn.
  - apply returns_ret. by rewrite app_nil_r.
  - apply returns_bind. eapply returns_mono; [by apply append_returns|].
    intros s1 σ1 (Hext1 & Hf1 & Hok1 & Hr1). cbn.
    eapply returns_mono; [by apply IH|].
    intros s2 σ2 (Hext2 & Hf2 & Hok2 & Hr2). cbn.
    repeat (split; [done|]). by rewrite Hr2, Hr1, <- app_assoc.
Qed.

Lemma convertHash_loop_returns groups : ∀ rrsets σ,
  returns (convertHash_loop growslack groups rrsets) σ
    (λ out σ', extends σ σ'
               ∧ ∃ created, out = rrsets ++ created
                            ∧ Forall2 (converted (heap σ'))
                                (filter (λ g, g.2 ≠ []) groups) created).
Proof.
  induction groups as [|[k recs] groups IH]; intros rrsets σ; cbn [convertHash_loop].
  - apply returns_ret. split; [apply extends_refl|]. exists [].
    split; [by rewrite app_nil_r | constructor].
  - destruct recs as [|r0 rs].
    + eapply returns_mono; [apply IH|].
      intros out σ1 (Hext1 & created & -> & Hall). split; [done|].
      exists created. split; [done|]. by rewrite filter_cons_False by (cbn; auto).
    + apply returns_bind.
      eapply returns_mono;
        [apply (convert_values_returns (r0 :: rs) nil_slice σ σ);
           [apply extends_refl | done | done]|].
      intros s σ1 (Hext1 & _ & Hok1 & Hr1). cbn beta.
      eapply returns_mono; [apply IH|].
      intros out σ2 (Hext2 & created & -> & Hall). cbn beta.
      split; [by eapply extends_trans|].
      eexists (_ :: created). split; [by rewrite <- app_assoc|].
      rewrite filter_cons_True by done. constructor; [|done].
      apply (converted_prefix (heap σ1)); [apply Hext2|].
      exists r0. cbn. repeat (split; [done|]). done.
Qed.

End ConvertFacts.

(** ** [mergeRRecs] *)

Lemma filter_keys_nil {A} (m : gmap string A) :
  filter (λ kv, kv.1 ∉ ([] : list string)) m = m.
Proof.
  apply map_eq. intros k. apply option_eq. intros x.
  rewrite map_lookup_filter_Some. cbn. split; [by intros [? _]|].
  intros H. split; [done | apply not_elem_of_nil].
Qed.

Lemma filter_keys_delete {A} (m : gmap string A) (k : string) (ks : list string) :
  filter (λ kv, kv.1 ∉ ks) (delete k m) = filter (λ kv, kv.1 ∉ k :: ks) m.
Proof.
  apply map_eq. intros k'. apply option_eq. intros x.
  rewrite !map_lookup_filter_Some, lookup_delete_Some, not_elem_of_cons. cbn.
  split; [intros [[? ?] ?] | intros [? [? ?]]]; repeat split; congruence.
Qed.

Lemma filter_keys_skip {A} (m : gmap string A) (k : string) (ks : list string) :
  m !! k = None →
  filter (λ kv, kv.1 ∉ ks) m = filter (λ kv, kv.1 ∉ k :: ks) m.
Proof. intros H. by rewrite <- filter_keys_delete, delete_id. Qed.

Lemma first_per_key_elem k ts :
  k ∈ rrkey <$> first_per_key ts ↔ k ∈ rrkey <$> ts.
Proof.
  induction ts as [|t ts IH]; [done|]. cbn [first_per_key]. rewrite !fmap_cons, !elem_of_cons.
  rewrite <- IH, !list_elem_of_fmap. split.
  - intros [->|(t' & -> & Ht')]; [by left|]. apply list_elem_of_filter in Ht' as [_ Ht'].
    right. by exists t'.
  - intros [->|(t' & -> & Ht')]; [by left|].
    destruct (decide (rrkey t' = rrkey t)) as [E|E]; [by left|].
    right. exists t'. split; [done|]. by apply list_elem_of_filter.
Qed.

Lemma first_per_key_NoDup ts : NoDup (rrkey <$> first_per_key ts).
Proof.
  induction ts as [|t ts IH]; [constructor|]. cbn [first_per_key]. rewrite fmap_cons.
  apply NoDup_cons. split.
  - intros (t' & E & Ht')%list_elem_of_fmap. apply list_elem_of_filter in Ht' as [Hne _].
    by destruct Hne.
  - eapply sublist_NoDup; [exact IH|]. apply fmap_sublist, sublist_filter.
Qed.

Lemma filter_Forall_id {A} (P : A → Prop) `{∀ x, Decision (P x)} (l : list A) :
  Forall P l → filter P l = l.
Proof.
  induction 1 as [|x l Hx _ IH]; [done|]. by rewrite filter_cons_True, IH.
Qed.

(** In a snapshot with at most one record set per key, every record set
    is the first with its key. *)
Lemma first_per_key_NoDup_id ts : NoDup (rrkey <$> ts) → first_per_key ts = ts.
Proof.
  induction ts as [|t ts IH]; [done|]. rewrite fmap_cons, NoDup_cons. intros [Hnotin Hnd].
  cbn [first_per_key]. rewrite IH by done. f_equal.
  apply filter_Forall_id, Forall_forall. intros t' Ht' E.
  apply Hnotin. rewrite <- E. by apply list_elem_of_fmap_2.
Qed.

Section MergeFacts.
Context {World : Type}.
Variable growslack : nat → nat.
Implicit Types (σ : state World).

Lemma merge_additions_returns recs : ∀ s dupes σ0 σ,
  extends σ0 σ → fresh (heap σ0) s → slice_ok (heap σ) s →
  returns (merge_additions growslack recs s dupes) σ
    (λ r σ', extends σ0 σ' ∧ fresh (heap σ0) r.1 ∧ slice_ok (heap σ') r.1).
Proof.
  induction recs as [|rec recs IH]; intros s dupes σ0 σ Hext Hf Hok; cbn.
  - by apply returns_ret.
  - destruct (is_dupe dupes (libdns.Value rec)); [by apply IH|].
    apply returns_bind. eapply returns_mono; [by apply append_returns|].
    intros s1 σ1 (Hext1 & Hf1 & Hok1 & _). cbn. by apply IH.
Qed.

(** One pass of the loop over the snapshot: the descriptors added are those
    of the record sets that are the first with their key and whose key has a
    bucket, in snapshot order; the map that is left has lost exactly the
    keys of the snapshot. *)
Lemma mergeRRecs_loop_returns ts : ∀ inHash rrsets σ,
  (∀ k b, inHash !! k = Some b → b ≠ []) →
  returns (mergeRRecs_loop growslack ts inHash rrsets) σ
    (λ r σ', extends σ σ'
             ∧ r.2 = filter (λ kv, kv.1 ∉ rrkey <$> ts) inHash
             ∧ ∃ matched,
                 r.1 = rrsets ++ matched
                 ∧ Forall2 (merged inHash)
                     (filter (λ t, is_Some (inHash !! rrkey t)) (first_per_key ts))
                     matched).
Proof.
  induction ts as [|t ts IH]; intros inHash rrsets σ Hne; cbn [mergeRRecs_loop].
  - apply returns_ret. split; [apply extends_refl|]. cbn.
    split; [by rewrite filter_keys_nil|]. exists []. by rewrite app_nil_r.
  - fold (rrkey t). destruct (inHash !! rrkey t) as [[|r0 rs]|] eqn:Hk.
    + by destruct (Hne _ _ Hk).
    + apply returns_bind. eapply returns_mono; [apply make_returns|].
      intros s0 σ1 (Hext1 & Hf1 & Hok1 & _). cbn beta.
      apply returns_bind. cbn [zones.Records set_Records].
      eapply returns_mono; [by apply (copy_returns s0 _ σ σ1)|].
      intros _ σ2 (Hext2 & Hok2). cbn beta.
      apply returns_bind. eexists _, _. split; [reflexivity|].
      apply returns_bind.
      eapply returns_mono;
        [by apply (merge_additions_returns (r0 :: rs) s0 _ σ σ2)|].
      intros [s dupes] σ3 (Hext3 & _ & _). cbn beta iota.
      eapply returns_mono; [apply (IH (delete (rrkey t) inHash))|].
      { intros k b Hb. apply lookup_delete_Some in Hb as [_ Hb]. by eapply Hne. }
      intros [out rest] σ4 (Hext4 & Hrest & matched & Hout & Hall).
      cbn [fst snd first_per_key fmap list_fmap] in *.
      split; [by eapply extends_trans|].
      split; [by rewrite Hrest, filter_keys_delete|].
      eexists (_ :: matched). split; [by rewrite Hout, <- app_assoc|].
      rewrite filter_cons_True by (by rewrite Hk). constructor.
      * cbn. repeat (split; [done|]). by exists r0, rs.
      * rewrite list_filter_filter.
        erewrite list_filter_iff; [eapply Forall2_impl; [exact Hall|]|].
        -- intros t' d' (? & ? & ? & ? & r0' & rs' & Hb & ?).
           apply lookup_delete_Some in Hb as [_ Hb].
           repeat (split; [done|]). by exists r0', rs'.
        -- intros t'. cbn. rewrite lookup_delete_is_Some.
           split; intros [? ?]; split; congruence.
    + eapply returns_mono; [by apply IH|].
      intros [out rest] σ1 (Hext1 & Hrest & matched & Hout & Hall).
      cbn [fst snd first_per_key fmap list_fmap] in *.
      split; [done|]. split; [by rewrite Hrest, <- filter_keys_skip|].
      exists matched. split; [done|].
      rewrite filter_cons_False by (rewrite Hk; by intros [? ?]).
      rewrite list_filter_filter.
      erewrite list_filter_iff; [exact Hall|].
      intros t'. cbn. split; [by intros [? _]|].
      intros [x Hx]. split; [by exists x|]. intros E. rewrite E, Hk in Hx. done.
Qed.

(** A snapshot none of whose keys has a bucket goes through the loop
    without a descriptor, and leaves map and store as they were. *)
Lemma mergeRRecs_loop_no_match ts inHash rrsets σ :
  Forall (λ t, inHash !! rrkey t = None) ts →
  mergeRRecs_loop growslack ts inHash rrsets σ = Some ((rrsets, inHash), σ).
Proof.
  induction 1 as [|t ts Ht _ IH]; cbn [mergeRRecs_loop]; [done|].
  fold (rrkey t). by rewrite Ht.
Qed.

End MergeFacts.

Lemma makeLDRecHash_nonempty records k b :
  makeLDRecHash records !! k = Some b → b ≠ [].
Proof. intros H. by apply makeLDRecHash_Some in H as [? _]. Qed.

Lemma makeLDRecHash_bucket_key records k b r :
  makeLDRecHash records !! k = Some b → r ∈ b → reckey r = k.
Proof.
  intros H Hr. apply makeLDRecHash_Some in H as [_ ->].
  by apply list_elem_of_filter in Hr as [? _].
Qed.

Lemma merged_rrkeys inHash ts ds :
  Forall2 (merged inHash) ts ds → rrkey <$> ds = rrkey <$> ts.
Proof.
  induction 1 as [|t d ts ds (Hn & Ht & _) _ IH]; [done|].
  rewrite !fmap_cons, IH. unfold rrkey. by rewrite Hn, Ht.
Qed.

Lemma converted_rrkeys records h groups ds :
  Forall (λ g, makeLDRecHash records !! g.1 = Some g.2) groups →
  Forall2 (converted h) groups ds → rrkey <$> ds = groups.*1.
Proof.
  intros Hg Hall. induction Hall as [|[k b] d groups ds Hd _ IH]; [done|].
  apply Forall_cons in Hg as [Hkb Hg]. rewrite !fmap_cons, IH by done. f_equal.
  destruct Hd as (r0 & H0 & Hn & Ht & _). cbn in *.
  unfold rrkey. rewrite Hn, Ht. apply (makeLDRecHash_bucket_key records k b); [done|].
  destruct b; [done|]. injection H0 as ->. left.
Qed.

Section PlannerTheorems.
Context {World : Type}.
Variable growslack : nat → nat.
Variable range_order :
  gmap string (list libdns.Record_) → list (string * list libdns.Record_).
Hypothesis range_order_perm : ∀ m, range_order m ≡ₚ map_to_list m.
Implicit Types (σ : state World).

(** What [convertHash] returns for a map all of whose buckets hold a
    record: one descriptor per entry, in the order of the [range]. *)
Lemma convertHash_returns inHash σ :
  (∀ k b, inHash !! k = Some b → b ≠ []) →
  returns (convertHash growslack range_order inHash) σ
    (λ out σ', extends σ σ' ∧ Forall2 (converted (heap σ')) (range_order inHash) out).
Proof.
  intros Hne. eapply returns_mono; [apply convertHash_loop_returns|].
  intros out σ' (Hext & created & -> & Hall). split; [done|].
  rewrite filter_Forall_id in Hall; [done|].
  apply Forall_forall. intros [k b] Hkb. cbn.
  rewrite range_order_perm in Hkb. apply elem_of_map_to_list in Hkb. by eapply Hne.
Qed.

(** C6: when no record set of the snapshot has a key with a bucket,
    [mergeRRecs] returns exactly what [convertHash] returns on the grouped
    records (for the same order of iteration over the map), with a [nil]
    error: one descriptor per group, each a REPLACE with the name, type and
    TTL of the group's first record, no comments, and the value of every
    record of the group in order, duplicates included. *)
Theorem mergeRRecs_unmatched_is_convertHash fullZone records σ :
  Forall (λ t, makeLDRecHash records !! rrkey t = None)
    (zones.ResourceRecordSets fullZone) →
  ∃ out σ' groups,
    convertHash growslack range_order (makeLDRecHash records) σ = Some (out, σ')
    ∧ mergeRRecs growslack range_order fullZone records σ = Some ((out, None), σ')
    ∧ groups ≡ₚ map_to_list (makeLDRecHash records)
    ∧ Forall2 (converted (heap σ')) groups out.
Proof.
  intros Hno.
  destruct (convertHash_returns (makeLDRecHash records) σ
              (makeLDRecHash_nonempty records)) as (out & σ' & Hrun & _ & Hall).
  exists out, σ', (range_order (makeLDRecHash records)).
  split; [done|]. split; [|split; [apply range_order_perm | done]].
  unfold mergeRRecs, bind. rewrite mergeRRecs_loop_no_match by done. by rewrite Hrun.
Qed.

(** C7: [mergeRRecs] returns the descriptors of the matched groups followed
    by those of the created groups.  The matched ones stand, in snapshot
    order, for the record sets that are the first with their key and whose
    key has a bucket; the created ones are what [convertHash] makes of the
    groups whose key no record set of the snapshot has.  Over the whole
    output every key of the grouping map occurs exactly once. *)
Theorem mergeRRecs_one_descriptor_per_group fullZone records σ :
  ∃ matched created σ' groups,
    mergeRRecs growslack range_order fullZone records σ
    = Some ((matched ++ created, None), σ')
    ∧ Forall2 (merged (makeLDRecHash records))
        (filter (λ t, is_Some (makeLDRecHash records !! rrkey t))
           (first_per_key (zones.ResourceRecordSets fullZone)))
        matched
    ∧ groups ≡ₚ map_to_list
                  (filter (λ kv, kv.1 ∉ rrkey <$> zones.ResourceRecordSets fullZone)
                     (makeLDRecHash records))
    ∧ Forall2 (converted (heap σ')) groups created
    ∧ (∀ d, d ∈ created → rrkey d ∉ rrkey <$> zones.ResourceRecordSets fullZone)
    ∧ rrkey <$> (matched ++ created) ≡ₚ (map_to_list (makeLDRecHash records)).*1
    ∧ length (matched ++ created) = size (makeLDRecHash records).
Proof.
  set (m0 := makeLDRecHash records). set (ts := zones.ResourceRecordSets fullZone).
  destruct (mergeRRecs_loop_returns growslack ts m0 [] σ (makeLDRecHash_nonempty records))
    as ([rrsets rest] & σ1 & Hloop & _ & Hrest & matched & Hrr & Hmatched).
  cbn [fst snd] in Hrest, Hrr. rewrite app_nil_l in Hrr. subst rrsets.
  assert (∀ k b, rest !! k = Some b → m0 !! k = Some b ∧ k ∉ rrkey <$> ts) as Hrest_in.
  { intros k b. rewrite Hrest. apply map_lookup_filter_Some. }
  destruct (convertHash_returns rest σ1) as (created & σ' & Hconv & _ & Hcreated).
  { intros k b Hb. apply Hrest_in in Hb as [Hb _]. by eapply makeLDRecHash_nonempty. }
  assert (rrkey <$> created = (range_order rest).*1) as Hckeys.
  { apply (converted_rrkeys records (heap σ')); [|done].
    apply Forall_forall. intros [k b] Hkb. rewrite range_order_perm in Hkb.
    apply elem_of_map_to_list in Hkb. by apply Hrest_in in Hkb as [? _]. }
  assert (rrkey <$> (matched ++ created) ≡ₚ (map_to_list m0).*1) as Hperm.
  { rewrite fmap_app, Hckeys, (merged_rrkeys _ _ _ Hmatched), range_order_perm.
    apply NoDup_Permutation.
    - apply NoDup_app. split; [|split].
      + eapply sublist_NoDup; [apply first_per_key_NoDup|].
        apply fmap_sublist, sublist_filter.
      + intros k (t & -> & Ht)%list_elem_of_fmap ([k' b] & E & Hkb)%list_elem_of_fmap.
        cbn in E. subst k'. apply elem_of_map_to_list, Hrest_in in Hkb as [_ Hk].
        apply Hk, first_per_key_elem, list_elem_of_fmap_2.
        by apply list_elem_of_filter in Ht as [_ ?].
      + apply NoDup_fst_map_to_list.
    - apply NoDup_fst_map_to_list.
    - intros k. rewrite elem_of_app, !list_elem_of_fmap. split.
      + intros [(t & -> & Ht)|([k' b] & -> & Hkb)].
        * apply list_elem_of_filter in Ht as [[b Hb] _].
          exists (rrkey t, b). split; [done|]. by apply elem_of_map_to_list.
        * apply elem_of_map_to_list, Hrest_in in Hkb as [Hb _].
          exists (k', b). split; [done|]. by apply elem_of_map_to_list.
      + intros ([k' b] & -> & Hkb). cbn. apply elem_of_map_to_list in Hkb.
        destruct (decide (k' ∈ rrkey <$> ts)) as [Hin|Hout].
        * left. apply first_per_key_elem, list_elem_of_fmap in Hin as (t & -> & Ht).
          exists t. split; [done|]. apply list_elem_of_filter. split; [by exists b | done].
        * right. exists (k', b). split; [done|]. apply elem_of_map_to_list.
          rewrite Hrest. by apply map_lookup_filter_Some. }
  exists matched, created, σ', (range_order rest).
  split; [|split; [done|]; split; [|split; [done|]; split; [|split; [done|]]]].
  - unfold mergeRRecs, bind. fold m0 ts. rewrite Hloop. cbn. by rewrite Hconv.
  - rewrite <- Hrest. apply range_order_perm.
  - intros d Hd. apply (list_elem_of_fmap_2 rrkey) in Hd. rewrite Hckeys in Hd.
    apply list_elem_of_fmap in Hd as ([k b] & -> & Hkb). rewrite range_order_perm in Hkb.
    by apply elem_of_map_to_list, Hrest_in in Hkb as [_ ?].
  - rewrite <- (length_fmap rrkey), Hperm, length_fmap. apply length_map_to_list.
Qed.

End PlannerTheorems.

(** ** [removeRecords] and [cullRRecs] *)

Lemma sread_length_array h h' s :
  (∀ b, length (array h' b) = length (array h b)) →
  length (sread h' s) = length (sread h s).
Proof.
  intros H. destruct s as [|b o l c]; [done|]. cbn.
  by rewrite !length_take, !length_drop, H.
Qed.

Section CullFacts.
Context {World : Type}.
Implicit Types (σ : state World).

Lemma touched_refl B σ : touched B σ σ.
Proof. by repeat split. Qed.

Lemma touched_trans B σ1 σ2 σ3 : touched B σ1 σ2 → touched B σ2 σ3 → touched B σ1 σ3.
Proof.
  intros (W1 & L1 & A1 & F1) (W2 & L2 & A2 & F2).
  split; [congruence|]. split; [congruence|]. split.
  - intros b. by rewrite A2, A1.
  - intros b Hb. by rewrite F2, F1.
Qed.

Lemma touched_mono (B B' : nat → Prop) σ σ' :
  (∀ b, B b → B' b) → touched B σ σ' → touched B' σ σ'.
Proof.
  intros HB (W & L & A & F). repeat (split; [done|]). intros b Hb. apply F. auto.
Qed.

Lemma copy_touched dst src σ :
  returns (copy dst src) σ (λ _ σ', touched (λ b, base_of dst = Some b) σ σ').
Proof.
  eexists _, _. split; [reflexivity|].
  destruct dst as [|b o l c]; [by split; [|split; [|split]]|].
  split; [done|]. cbn. split; [apply length_alter|]. split.
  - intros b'. unfold array. rewrite list_lookup_alter.
    destruct (decide (b = b')) as [<-|]; [|done].
    destruct (heap σ !! b); [|done]. cbn. apply length_inserts.
  - intros b' Hb'. apply list_lookup_alter_ne. congruence.
Qed.

Lemma index_returns s i σ (Q : zones.Record_ → state World → Prop) :
  i < slen s →
  Q (default zones.zeroRecord (sread (heap σ) s !! i)) σ →
  returns (index s i) σ Q.
Proof.
  intros Hi HQ. unfold returns, index. rewrite decide_True by done. eauto.
Qed.

Lemma reslice_returns b o l c lo hi σ (Q : slice → state World → Prop) :
  lo ≤ hi → hi ≤ c →
  Q (Slice b (o + lo) (hi - lo) (c - lo)) σ →
  returns (reslice (Slice b o l c) lo hi) σ Q.
Proof.
  intros Hlo Hhi HQ. unfold returns, reslice. cbn [scap].
  rewrite decide_True by done. unfold ret. eauto.
Qed.

Lemma deleteItem_loop_returns item n : ∀ recs σ,
  n ≤ slen recs → slen recs ≤ scap recs →
  returns (deleteItem_loop item n recs) σ
    (λ recs' σ', touched (λ b, base_of recs = Some b) σ σ'
                 ∧ base_of recs' = base_of recs ∧ slen recs' ≤ scap recs').
Proof.
  induction n as [|i IH]; intros recs σ Hn Hcap; cbn [deleteItem_loop].
  - apply returns_ret. split; [apply touched_refl | done].
  - apply returns_bind, index_returns; [lia|].
    destruct (decide _) as [_|_]; [|apply IH; lia].
    destruct recs as [|b o l c]; cbn in Hn, Hcap; [lia|].
    destruct l as [|m]; [lia|].
    unfold reslice_from, reslice_to. cbn [slen].
    apply returns_bind, reslice_returns; [lia..|].
    apply returns_bind, reslice_returns; [lia..|].
    apply returns_bind. eapply returns_mono; [apply copy_touched|].
    intros ? σ1 Ht1. cbn beta in Ht1 |- *.
    apply returns_bind, reslice_returns; [lia..|].
    eapply returns_mono; [apply IH; cbn; lia|].
    intros recs' σ2 (Ht2 & Hb & Hwf). cbn in *.
    split; [by eapply touched_trans|]. done.
Qed.

Lemma removeRecords_returns culls : ∀ rRSet σ,
  slen (zones.Records rRSet) ≤ scap (zones.Records rRSet) →
  returns (removeRecords rRSet culls) σ
    (λ _ σ', touched (λ b, base_of (zones.Records rRSet) = Some b) σ σ').
Proof.
  induction culls as [|cull culls IH]; intros rRSet σ Hwf; cbn [removeRecords].
  - apply returns_ret, touched_refl.
  - apply returns_bind.
    eapply returns_mono; [by apply deleteItem_loop_returns|].
    intros recs σ1 (Ht1 & Hb & Hwf1). cbn beta.
    eapply returns_mono; [by apply IH|].
    intros ? σ2 Ht2. cbn in *. eapply touched_trans; [done|]. by rewrite <- Hb.
Qed.

Lemma cullRRecs_loop_returns inHash ts : ∀ rRSets σ,
  Forall (λ t, slen (zones.Records t) ≤ scap (zones.Records t)) ts →
  returns (cullRRecs_loop ts inHash rRSets) σ
    (λ _ σ', touched (λ b, ∃ t, t ∈ ts ∧ is_Some (inHash !! rrkey t)
                              ∧ base_of (zones.Records t) = Some b) σ σ').
Proof.
  induction ts as [|t ts IH]; intros rRSets σ Hwf; cbn [cullRRecs_loop].
  - apply returns_ret, touched_refl.
  - apply Forall_cons in Hwf as [Hwf_t Hwf].
    assert (∀ σ1 out, touched (λ b, base_of (zones.Records t) = Some b
                                   ∧ is_Some (inHash !! rrkey t)) σ σ1 →
            returns (cullRRecs_loop ts inHash out) σ1
              (λ _ σ', touched (λ b, ∃ t', t' ∈ t :: ts ∧ is_Some (inHash !! rrkey t')
                                        ∧ base_of (zones.Records t') = Some b) σ σ'))
      as Hrest.
    { intros σ1 out Ht1. eapply returns_mono; [by apply IH|].
      intros ? σ2 Ht2. eapply touched_trans.
      - eapply touched_mono; [|exact Ht1]. intros b [Hb Hk]. exists t.
        split; [left|done].
      - eapply touched_mono; [|exact Ht2]. intros b (t' & Ht' & Hk & Hb). exists t'.
        split; [by right|done]. }
    fold (rrkey t). destruct (inHash !! rrkey t) as [[|r0 rs]|] eqn:Hk.
    + apply Hrest, touched_refl.
    + apply returns_bind. eapply returns_mono; [by apply removeRecords_returns|].
      intros rr σ1 Ht1. cbn beta. apply Hrest.
      eapply touched_mono; [|exact Ht1]. intros b Hb. split; [done|]. by eexists.
    + apply Hrest, touched_refl.
Qed.

End CullFacts.

(** ** What the planners leave of the snapshot *)

(** C4 as stated fails for [cullRRecs]: on a record set with the values
    ["a","b","c"] and the request to remove "b", the array the snapshot
    shares with the planner holds ["a","a","b"] afterwards. *)
Lemma cullRRecs_overwrites_snapshot :
  ∃ out σ',
    cullRRecs Examples.abc_zone [Examples.desired "mail" "MX" "b" 0]
      (Examples.store tt Examples.abc_values) = Some (out, σ')
    ∧ descriptor_values (heap (Examples.store tt Examples.abc_values))
        (zones.ResourceRecordSets Examples.abc_zone)
      = [[Examples.rec "a"; Examples.rec "b"; Examples.rec "c"]]
    ∧ descriptor_values (heap σ') (zones.ResourceRecordSets Examples.abc_zone)
      = [[Examples.rec "a"; Examples.rec "a"; Examples.rec "b"]].
Proof. eexists _, _. split; [vm_compute; reflexivity|]. split; reflexivity. Qed.

Section Frame.
Context {World : Type}.
Variable growslack : nat → nat.
Variable range_order :
  gmap string (list libdns.Record_) → list (string * list libdns.Record_).
Implicit Types (σ : state World).

Lemma mergeRRecs_extends fullZone records σ :
  returns (mergeRRecs growslack range_order fullZone records) σ
    (λ r σ', r.2 = None ∧ extends σ σ').
Proof.
  unfold mergeRRecs. apply returns_bind.
  eapply returns_mono;
    [apply mergeRRecs_loop_returns, makeLDRecHash_nonempty|].
  intros [rrsets rest] σ1 (Hext1 & _). cbn beta iota.
  apply returns_bind. eapply returns_mono; [apply convertHash_loop_returns|].
  intros created σ2 (Hext2 & _). apply returns_ret. split; [done|].
  by eapply extends_trans.
Qed.

(** C4, amended.  [mergeRRecs] leaves the snapshot as it was: it never
    panics, leaves the server alone, and every array that existed before
    the call, so every value list of the snapshot, is unchanged.
    [cullRRecs] never panics and leaves the server alone; name, type, TTL
    and comments of the record sets are not part of what it can write; every
    array keeps its length, so every record set its number of values; and
    an array keeps its contents unless it is the array of a record set
    whose key has a bucket in the records to remove. *)
Theorem planners_leave_snapshot fullZone records σ :
  zone_ok (heap σ) fullZone →
  (∃ out σ',
     mergeRRecs growslack range_order fullZone records σ = Some ((out, None), σ')
     ∧ world σ' = world σ
     ∧ heap σ `prefix_of` heap σ'
     ∧ Forall (λ t, sread (heap σ') (zones.Records t) = sread (heap σ) (zones.Records t))
         (zones.ResourceRecordSets fullZone))
  ∧ (∃ out σ',
       cullRRecs fullZone records σ = Some (out, σ')
       ∧ world σ' = world σ
       ∧ length (heap σ') = length (heap σ)
       ∧ (∀ b, length (array (heap σ') b) = length (array (heap σ) b))
       ∧ (∀ b, (∀ t, t ∈ zones.ResourceRecordSets fullZone →
                     is_Some (makeLDRecHash records !! rrkey t) →
                     base_of (zones.Records t) ≠ Some b) →
               heap σ' !! b = heap σ !! b)
       ∧ Forall (λ t, length (sread (heap σ') (zones.Records t))
                      = length (sread (heap σ) (zones.Records t)))
           (zones.ResourceRecordSets fullZone)).
Proof.
  intros Hok. split.
  - destruct (mergeRRecs_extends fullZone records σ)
      as ([out err] & σ' & Hrun & Herr & Hp & Hw).
    cbn in Herr. subst err. exists out, σ'. repeat (split; [done|]).
    eapply Forall_impl; [exact Hok|]. intros t Ht. by apply sread_prefix.
  - destruct (cullRRecs_loop_returns (makeLDRecHash records)
                (zones.ResourceRecordSets fullZone) [] σ)
      as (out & σ' & Hrun & Hw & Hlen & Harr & Hframe).
    { eapply Forall_impl; [exact Hok|]. intros t Ht. cbn beta in Ht.
      destruct (zones.Records t) as [|b o l c]; cbn in *; [lia | by destruct Ht]. }
    exists out, σ'. repeat (split; [done|]). split.
    + intros b Hb. apply Hframe. intros (t & Ht & Hk & Hbase). by eapply Hb.
    + apply Forall_forall. intros t _. by apply sread_length_array.
Qed.

End Frame.

Lemma planners_leave_snapshot_witness :
  (∃ out σ',
     mergeRRecs (λ n, n) map_to_list Examples.abc_zone
       [Examples.desired "mail" "MX" "b" 0] (Examples.store tt Examples.abc_values)
     = Some ((out, None), σ')
     ∧ Forall (λ t, sread (heap σ') (zones.Records t)
                    = sread [Examples.abc_values] (zones.Records t))
         (zones.ResourceRecordSets Examples.abc_zone))
  ∧ (∃ out σ',
       cullRRecs Examples.abc_zone [Examples.desired "mail" "MX" "b" 0]
         (Examples.store tt Examples.abc_values) = Some (out, σ')
       ∧ Forall (λ t, length (sread (heap σ') (zones.Records t))
                      = length (sread [Examples.abc_values] (zones.Records t)))
           (zones.ResourceRecordSets Examples.abc_zone)).
Proof.
  assert (zone_ok (heap (Examples.store tt Examples.abc_values)) Examples.abc_zone) as Hok.
  { unfold zone_ok. constructor; [|constructor]. cbn. split; [lia|].
    eexists. split; [reflexivity|]. cbn. lia. }
  destruct (planners_leave_snapshot (λ n, n) map_to_list Examples.abc_zone
              [Examples.desired "mail" "MX" "b" 0]
              (Examples.store tt Examples.abc_values) Hok)
    as [(out1 & σ1 & Hrun1 & _ & _ & Hv1) (out2 & σ2 & Hrun2 & _ & _ & _ & _ & Hv2)].
  split.
  - exists out1, σ1. split; [exact Hrun1 | exact Hv1].
  - exists out2, σ2. split; [exact Hrun2 | exact Hv2].
Defined.

(** ** The theorems at the spec's examples *)

(** Example 5 of the spec: a desired record with no record set of its key. *)
Lemma mergeRRecs_unmatched_is_convertHash_witness :
  ∃ out σ' groups,
    convertHash (λ n, n) map_to_list
      (makeLDRecHash [Examples.desired "new" "TXT" "hello" 60000000000])
      (Examples.store tt Examples.www_values) = Some (out, σ')
    ∧ mergeRRecs (λ n, n) map_to_list Examples.www_zone
        [Examples.desired "new" "TXT" "hello" 60000000000]
        (Examples.store tt Examples.www_values) = Some ((out, None), σ')
    ∧ groups ≡ₚ map_to_list
                  (makeLDRecHash [Examples.desired "new" "TXT" "hello" 60000000000])
    ∧ Forall2 (converted (heap σ')) groups out.
Proof.
  apply (mergeRRecs_unmatched_is_convertHash (λ n, n) map_to_list (λ m, reflexivity _)
           Examples.www_zone [Examples.desired "new" "TXT" "hello" 60000000000]
           (Examples.store tt Examples.www_values)).
  constructor; [vm_compute; reflexivity | constructor].
Defined.

Lemma mergeRRecs_one_descriptor_per_group_witness :
  ∃ matched created σ' groups,
    mergeRRecs (λ n, n) map_to_list Examples.www_zone
      [Examples.desired "www" "A" "2.2.2.2" 300000000000;
       Examples.desired "new" "TXT" "hello" 60000000000]
      (Examples.store tt Examples.www_values)
    = Some ((matched ++ created, None), σ')
    ∧ Forall2 (merged (makeLDRecHash
                         [Examples.desired "www" "A" "2.2.2.2" 300000000000;
                          Examples.desired "new" "TXT" "hello" 60000000000]))
        (filter (λ t, is_Some (makeLDRecHash
                                 [Examples.desired "www" "A" "2.2.2.2" 300000000000;
                                  Examples.desired "new" "TXT" "hello" 60000000000]
                               !! rrkey t))
           (first_per_key (zones.ResourceRecordSets Examples.www_zone)))
        matched
    ∧ groups ≡ₚ map_to_list
                  (filter (λ kv, kv.1 ∉ rrkey <$> zones.ResourceRecordSets Examples.www_zone)
                     (makeLDRecHash
                        [Examples.desired "www" "A" "2.2.2.2" 300000000000;
                         Examples.desired "new" "TXT" "hello" 60000000000]))
    ∧ Forall2 (converted (heap σ')) groups created
    ∧ (∀ d, d ∈ created →
            rrkey d ∉ rrkey <$> zones.ResourceRecordSets Examples.www_zone)
    ∧ rrkey <$> (matched ++ created)
      ≡ₚ (map_to_list (makeLDRecHash
                         [Examples.desired "www" "A" "2.2.2.2" 300000000000;
                          Examples.desired "new" "TXT" "hello" 60000000000])).*1
    ∧ length (matched ++ created)
      = size (makeLDRecHash
                [Examples.desired "www" "A" "2.2.2.2" 300000000000;
                 Examples.desired "new" "TXT" "hello" 60000000000]).
Proof.
  apply (mergeRRecs_one_descriptor_per_group (λ n, n) map_to_list (λ m, reflexivity _)).
Defined.

(** * Further properties of the package *)

(** ** The key, one argument at a time *)

Lemma append_inj_r (a s t : string) : a +:+ s = a +:+ t → s = t.
Proof.
  induction a as [|x a IH]; [done|]. rewrite !append_String. intros [= E]. auto.
Qed.

Lemma length_append_String (a b : string) :
  String.length (a +:+ b) = String.length a + String.length b.
Proof.
  induction a as [|x a IH]; [done|]. rewrite append_String. cbn. by rewrite IH.
Qed.

Lemma append_colon_inj_l (n1 n2 t : string) :
  n1 +:+ String ":"%char t = n2 +:+ String ":"%char t → n1 = n2.
Proof.
  intros E.
  assert (String.length n1 = String.length n2) as Hlen.
  { apply (f_equal String.length) in E. rewrite !length_append_String in E.
    cbn in E. lia. }
  revert n2 E Hlen. induction n1 as [|a n1 IH]; intros [|b n2] E Hlen; try done.
  rewrite !append_String in E. injection E as -> E. f_equal. apply IH; [done|].
  cbn in Hlen. lia.
Qed.

(** X2: two keys made with the same name agree only for the same type, and two
    keys made with the same type agree only for the same name: a collision
    of keys needs records that differ in both. *)
Theorem key_inj_in_each_argument (n1 n2 t1 t2 : string) :
  key n1 t1 = key n2 t2 → (n1 = n2 ↔ t1 = t2).
Proof.
  unfold key. intros E. split; intros ->.
  - apply append_inj_r in E. rewrite !append_String, !append_empty in E.
    by injection E.
  - rewrite !append_String, !append_empty in E. by apply append_colon_inj_l in E.
Qed.

Lemma key_inj_in_each_argument_witness :
  "www" = "www" ↔ "A" = "A".
Proof. apply (key_inj_in_each_argument "www" "www" "A" "A"). reflexivity. Defined.

(** ** Applying descriptors *)

Section UpdateFacts.
Context {World : Type}.
Implicit Types (c : Client World) (σ : state World).

Lemma updateRRs_app c zid pre post σ :
  updateRRs c zid (pre ++ post) σ
  = match updateRRs c zid pre σ with
    | Some (None, σ1) => updateRRs c zid post σ1
    | other => other
    end.
Proof.
  revert σ. induction pre as [|d pre IH]; intros σ; [done|].
  cbn [app updateRRs]. unfold bind.
  destruct (AddRecordSetToZone _ _ _ _ σ) as [[[e|] σ1]|]; [done| |done].
  apply IH.
Qed.

(** X11: [updateRRs] stops at the first descriptor the server refuses: when the
    descriptors before it were applied and it fails with [e], the result is
    that error, the state is the one its own call left, and whatever
    descriptors follow have no part in either. *)
Theorem updateRRs_first_failure_aborts c zid pre bad post σ σ1 e σ2 :
  updateRRs c zid pre σ = Some (None, σ1) →
  AddRecordSetToZone (Zones c) (sID c) zid bad σ1 = Some (Some e, σ2) →
  updateRRs c zid (pre ++ bad :: post) σ = Some (Some (LibraryError e), σ2).
Proof.
  intros Hpre Hbad. rewrite updateRRs_app, Hpre. cbn [updateRRs]. unfold bind.
  by rewrite Hbad.
Qed.

(** X12: applying a list of descriptors in one go is applying a first part
    and then, from the state that left, the rest: [updateRRs] returns [nil]
    on the whole list exactly when it does on both parts in turn. *)
Theorem updateRRs_splits c zid pre post σ σ2 :
  updateRRs c zid (pre ++ post) σ = Some (None, σ2)
  ↔ ∃ σ1, updateRRs c zid pre σ = Some (None, σ1)
          ∧ updateRRs c zid post σ1 = Some (None, σ2).
Proof.
  rewrite updateRRs_app. split.
  - destruct (updateRRs c zid pre σ) as [[[e|] σ1]|]; [done| |done]. eauto.
  - intros (σ1 & -> & H). done.
Qed.

End UpdateFacts.

(** ** The provider's client *)

Section ClientCache.
Context {World : Type}.
Variable pdns_New : string → string → library_result (ZonesClient World).

(** X13: the client is built once: after a call of [client] that succeeded,
    every further call returns the same client and leaves the provider as it
    is, whatever [pdns.New] would answer then.  A call that failed leaves no
    client behind, and URL, server ID and token are never touched. *)
Theorem client_is_cached (pdns_New' : string → string → library_result (ZonesClient World))
    p rc p' :
  client pdns_New p = (rc, p') →
  ServerURL p' = ServerURL p ∧ ServerID p' = ServerID p ∧ APIToken p' = APIToken p
  ∧ match rc with
    | Ok cl => c p' = Some cl ∧ client pdns_New' p' = (Ok cl, p')
    | Err e => c p' = None ∧ c p = None
    end.
Proof.
  unfold client. destruct (c p) as [cl|] eqn:Hc.
  - intros [= <- <-]. by rewrite Hc.
  - destruct (NewClient _ _ _ _) as [cl|e]; intros [= <- <-]; done.
Qed.

End ClientCache.

(** ** The four operations when the zone does not resolve *)

Section ZoneNotFound.
Context {World : Type}.
Variable growslack : nat → nat.
Variable range_order :
  gmap string (list libdns.Record_) → list (string * list libdns.Record_).
Variable pdns_New : string → string → library_result (ZonesClient World).
Implicit Types (σ : state World).

Lemma shortZone_not_one cl zone σ pzones σ1 :
  ListZone (Zones cl) (sID cl) zone σ = Some (Ok pzones, σ1) →
  length pzones ≠ 1 →
  shortZone cl zone σ = Some (Err (Errorf "zone not found"), σ1).
Proof.
  intros HL Hlen. unfold shortZone, bind. rewrite HL.
  by rewrite decide_True by done.
Qed.

(** X14: when the lookup lists no zone, or more than one, under the name, each
    of the four operations fails with "zone not found" and stops there: the
    state is the one the lookup left, so nothing was fetched and no
    descriptor was sent. *)
Theorem operations_stop_at_zone_not_found p cl p' zone records σ pzones σ1 :
  client pdns_New p = (Ok cl, p') →
  ListZone (Zones cl) (sID cl) zone σ = Some (Ok pzones, σ1) →
  length pzones ≠ 1 →
  GetRecords pdns_New p zone σ = Some ((Err (Errorf "zone not found"), p'), σ1)
  ∧ AppendRecords growslack range_order pdns_New p zone records σ
    = Some ((Err (Errorf "zone not found"), p'), σ1)
  ∧ SetRecords growslack range_order pdns_New p zone records σ
    = Some ((Err (Errorf "zone not found"), p'), σ1)
  ∧ DeleteRecords pdns_New p zone records σ
    = Some ((Err (Errorf "zone not found"), p'), σ1).
Proof.
  intros Hc HL Hlen. pose proof (shortZone_not_one _ _ _ _ _ HL Hlen) as Hs.
  unfold GetRecords, AppendRecords, SetRecords, DeleteRecords, fullZone, zoneID.
  rewrite Hc. unfold bind. rewrite Hs. done.
Qed.

End ZoneNotFound.

(** A server that knows no zone at all. *)
Lemma operations_stop_at_zone_not_found_witness :
  GetRecords (λ _ _, Ok (mkZonesClient (λ _ _, ret (Ok [])) (λ _ _, ret (Err "none"))
                           (λ _ _ _, ret None)))
    ExampleServer.provider "example.org." (Examples.store tt [])
  = Some ((Err (Errorf "zone not found"),
           mkProvider "http://localhost:8081" "localhost" "secret"
             (Some (mkClient "localhost"
                      (mkZonesClient (λ _ _, ret (Ok [])) (λ _ _, ret (Err "none"))
                         (λ _ _ _, ret None))))),
          Examples.store tt []).
Proof.
  eapply (operations_stop_at_zone_not_found (λ n, n) map_to_list
            (λ _ _, Ok (mkZonesClient (λ _ _, ret (Ok [])) (λ _ _, ret (Err "none"))
                          (λ _ _ _, ret None)))
            ExampleServer.provider _ _ "example.org." [] (Examples.store tt []) []);
    [reflexivity | reflexivity | cbn; lia].
Defined.

(** ** [removeRecords], value by value *)

Lemma occurrences_snoc item vals r :
  occurrences item (vals ++ [r])
  = occurrences item vals + (if decide (zones.Content r = item) then 1 else 0).
Proof.
  unfold occurrences. rewrite filter_app, length_app. f_equal.
  destruct (decide _); [by rewrite filter_cons_True | by rewrite filter_cons_False].
Qed.

Lemma occurrences_le item vals : occurrences item vals ≤ length vals.
Proof. unfold occurrences. apply length_filter. Qed.

Lemma occurrences_all item vals :
  occurrences item vals = length vals ↔ Forall (λ r, zones.Content r = item) vals.
Proof.
  unfold occurrences. induction vals as [|r vals IH]; [by split|].
  destruct (decide (zones.Content r = item)) as [E|E].
  - rewrite filter_cons_True by done. cbn. rewrite Forall_cons.
    split; [intros [= H]; split; [done|by apply IH] | intros [_ H]; f_equal; by apply IH].
  - rewrite filter_cons_False by done. cbn. split.
    + intros H. pose proof (length_filter (λ r, zones.Content r = item) vals). lia.
    + intros [? _]%Forall_cons. done.
Qed.

Lemma occurrences_none item vals :
  occurrences item vals = 0 ↔ Forall (λ r, zones.Content r ≠ item) vals.
Proof.
  unfold occurrences. induction vals as [|r vals IH]; [by split|].
  destruct (decide (zones.Content r = item)) as [E|E].
  - rewrite filter_cons_True by done. cbn. split; [done|]. by intros [? _]%Forall_cons.
  - rewrite filter_cons_False by done. rewrite Forall_cons, IH. tauto.
Qed.

(** What the shifting [copy] of [deleteItem] does to an array: the window
    [o, o+l) of the array holds the slice, a match was found at [i]. *)
Lemma shift_window {A} (arr : list A) (o i l : nat) :
  i < l → o + l ≤ length arr →
  let vals := take ((l - i) `min` (i + 1)) (take (i + 1) (drop o arr)) in
  let arr1 := list_inserts (o + i) vals arr in
  (∀ j, j < i → arr1 !! (o + j) = arr !! (o + j))
  ∧ (∀ j, l ≤ j → arr1 !! (o + j) = arr !! (o + j))
  ∧ (∀ j, j < l → ∃ j', j' < l ∧ arr1 !! (o + j) = arr !! (o + j'))
  ∧ arr1 !! o = arr !! o.
Proof.
  intros Hi Hl vals arr1.
  assert (length vals = (l - i) `min` (i + 1)) as Hvals.
  { unfold vals. rewrite !length_take, length_drop. lia. }
  assert (∀ j, i ≤ j < i + length vals → arr1 !! (o + j) = arr !! (o + (j - i))) as Hmid.
  { intros j Hj. unfold arr1. rewrite list_lookup_inserts by lia.
    replace (o + j - (o + i)) with (j - i) by lia.
    unfold vals. rewrite !lookup_take_lt by lia. by rewrite lookup_drop. }
  assert (∀ j, j < i → arr1 !! (o + j) = arr !! (o + j)) as Hlt.
  { intros j Hj. unfold arr1. apply list_lookup_inserts_lt. lia. }
  assert (∀ j, i + length vals ≤ j → arr1 !! (o + j) = arr !! (o + j)) as Hge.
  { intros j Hj. unfold arr1. apply list_lookup_inserts_ge. lia. }
  split; [done|]. split; [intros j Hj; apply Hge; lia|]. split.
  - intros j Hj. destruct (decide (j < i)) as [?|?]; [exists j; auto|].
    destruct (decide (j < i + length vals)) as [?|?].
    + exists (j - i). split; [lia|]. apply Hmid. lia.
    + exists j. split; [done|]. apply Hge. lia.
  - destruct i as [|i].
    + specialize (Hmid 0). cbn in Hmid. rewrite Nat.add_0_r in Hmid. apply Hmid. lia.
    + specialize (Hlt 0). rewrite Nat.add_0_r in Hlt. apply Hlt. lia.
Qed.

Lemma take_window_eq {A} (arr arr1 : list A) (o i l m : nat) :
  (∀ j, j < i → arr1 !! (o + j) = arr !! (o + j)) → i ≤ m → i ≤ l →
  take i (take m (drop o arr1)) = take i (take l (drop o arr)).
Proof.
  intros H Hm Hl. rewrite !take_take, !Nat.min_l by done.
  apply list_eq. intros j. rewrite !lookup_take, !lookup_drop.
  destruct (decide (j < i)); auto.
Qed.

Section PruneFacts.
Context {World : Type}.
Implicit Types (σ : state World).

Lemma window_kept_refl b o len σ arr :
  heap σ !! b = Some arr → window_kept b o len σ σ.
Proof.
  intros H. repeat (split; [done|]). exists arr, arr. repeat (split; [done|]).
  split; [|done]. intros j Hj. by exists j.
Qed.

Lemma window_kept_trans b o len σ1 σ2 σ3 :
  window_kept b o len σ1 σ2 → window_kept b o len σ2 σ3 → window_kept b o len σ1 σ3.
Proof.
  intros (W1 & L1 & F1 & a1 & a2 & Ha1 & Ha2 & Hl1 & Hin1 & Hout1 & H01)
         (W2 & L2 & F2 & a2' & a3 & Ha2' & Ha3 & Hl2 & Hin2 & Hout2 & H02).
  rewrite Ha2 in Ha2'. injection Ha2' as <-.
  split; [congruence|]. split; [congruence|].
  split; [intros b' Hb'; by rewrite F2, F1|].
  exists a1, a3. split; [done|]. split; [done|]. split; [congruence|].
  split; [|split; [intros j Hj; by rewrite Hout2, Hout1 | congruence]].
  intros j Hj. destruct (Hin2 j Hj) as (j' & Hj' & ->).
  destruct (Hin1 j' Hj') as (j'' & Hj'' & ->). by exists j''.
Qed.

Lemma window_kept_weaken b o len len' σ σ' :
  len ≤ len' → window_kept b o len σ σ' → window_kept b o len' σ σ'.
Proof.
  intros Hle (W & L & F & arr & arr' & Ha & Ha' & Hl & Hin & Hout & H0).
  repeat (split; [done|]). exists arr, arr'. repeat (split; [done|]).
  split; [|split; [intros j Hj; apply Hout; lia | done]].
  intros j Hj. destruct (decide (j < len)) as [Hlt|Hge].
  - destruct (Hin j Hlt) as (j' & Hj' & E). exists j'. split; [lia|done].
  - exists j. split; [done|]. apply Hout. lia.
Qed.

(** The loop of [deleteItem] from index [n - 1] down: the slice loses one
    element per value among its first [n] that has the content [item]. *)
Lemma deleteItem_loop_prunes item b o c n : ∀ l σ arr,
  n ≤ l → l ≤ c → heap σ !! b = Some arr → o + c ≤ length arr →
  returns (deleteItem_loop item n (Slice b o l c)) σ
    (λ recs' σ',
       recs' = Slice b o (l - occurrences item (take n (take l (drop o arr)))) c
       ∧ window_kept b o l σ σ').
Proof.
  induction n as [|i IH]; intros l σ arr Hn Hl Harr Hc; cbn [deleteItem_loop].
  - apply returns_ret. rewrite take_0. unfold occurrences. cbn.
    rewrite Nat.sub_0_r. split; [done|]. by eapply window_kept_refl.
  - assert (∃ x, take l (drop o arr) !! i = Some x) as [x Hx].
    { apply lookup_lt_is_Some. rewrite length_take, length_drop. lia. }
    apply returns_bind, index_returns; [cbn; lia|].
    cbn [sread]. unfold array. rewrite Harr. cbn [from_option id]. rewrite Hx.
    cbn [from_option id].
    rewrite (take_S_r _ _ _ Hx), occurrences_snoc.
    destruct (decide (zones.Content x = item)) as [Hmatch|Hno].
    + destruct l as [|m]; [lia|].
      unfold reslice_from, reslice_to. cbn [slen].
      apply returns_bind, reslice_returns; [lia..|].
      apply returns_bind, reslice_returns; [lia..|].
      apply returns_bind. eexists _, _. split; [reflexivity|].
      apply returns_bind, reslice_returns; [lia..|].
      rewrite !Nat.add_0_r, !Nat.sub_0_r.
      cbn [slen sread swrite heap with_heap]. unfold array. rewrite Harr.
      cbn [from_option id].
      destruct (shift_window arr o i (S m)) as (Hlt & Hge & Hin & H0); [lia..|].
      set (vals := take _ (take (i + 1) (drop o arr))) in *.
      set (arr1 := list_inserts (o + i) vals arr) in *.
      set (σ1 := with_heap σ _).
      assert (heap σ1 !! b = Some arr1) as Harr1.
      { cbn. by rewrite list_lookup_alter_eq, Harr. }
      assert (window_kept b o (S m) σ σ1) as Hk1.
      { split; [done|]. split; [apply length_alter|].
        split; [intros b' Hb'; cbn; by rewrite list_lookup_alter_ne|].
        exists arr, arr1. repeat (split; [done|]).
        split; [apply length_inserts|]. done. }
      eapply returns_mono.
      { apply (IH m σ1 arr1); [lia | lia | done |].
        unfold arr1. rewrite length_inserts. done. }
      intros recs' σ' (-> & Hk2). cbn beta. split.
      * f_equal. rewrite (take_window_eq arr arr1 o i (S m) m) by (auto; lia). lia.
      * eapply window_kept_trans; [exact Hk1|].
        eapply window_kept_weaken; [|exact Hk2]. lia.
    + eapply returns_mono; [apply (IH l σ arr); (lia || done)|].
      intros recs' σ' (-> & Hk). cbn beta. split; [|done]. f_equal. lia.
Qed.

End PruneFacts.

Section RemoveFacts.
Context {World : Type}.
Implicit Types (σ : state World).

Lemma set_Records_same rRSet : set_Records rRSet (zones.Records rRSet) = rRSet.
Proof. by destruct rRSet. Qed.

Lemma removeRecords_window b o c len culls : ∀ l rRSet σ arr,
  zones.Records rRSet = Slice b o l c →
  l ≤ len → len ≤ c → heap σ !! b = Some arr → o + c ≤ length arr →
  returns (removeRecords rRSet culls) σ
    (λ rr σ', ∃ l', rr = set_Records rRSet (Slice b o l' c) ∧ l' ≤ l
                    ∧ window_kept b o len σ σ').
Proof.
  induction culls as [|cull culls IH]; intros l rRSet σ arr Hrecs Hl Hlen Harr Hc;
    cbn [removeRecords].
  - apply returns_ret. exists l. rewrite <- Hrecs, set_Records_same.
    split; [done|]. split; [done|]. by eapply window_kept_refl.
  - apply returns_bind. unfold deleteItem. rewrite Hrecs. cbn [slen].
    eapply returns_mono; [by apply (deleteItem_loop_prunes _ b o c l l σ arr); try lia|].
    intros recs σ1 (-> & Hk1). cbn beta.
    destruct Hk1 as (W1 & L1 & F1 & arr_ & arr1 & Ha & Ha1 & Hlen1 & Hrest).
    rewrite Harr in Ha. injection Ha as <-.
    eapply returns_mono.
    { eapply (IH _ _ σ1 arr1); [reflexivity | | exact Hlen | exact Ha1 | lia].
      etrans; [apply Nat.le_sub_l | exact Hl]. }
    intros rr σ2 (l' & -> & Hl' & Hk2). cbn beta. exists l'.
    split; [by destruct rRSet|]. split; [lia|].
    eapply window_kept_trans; [|exact Hk2].
    eapply window_kept_weaken; [exact Hl|].
    repeat (split; [done|]). by exists arr, arr1.
Qed.

(** X8: however many values [removeRecords] is asked to remove, what it
    returns is the record set it was given with a value list that is no
    longer than before and holds only values the set had; and as long as
    that list is not empty, its first value is the set's first value. *)
Theorem removeRecords_keeps_first_value rRSet culls σ :
  slice_ok (heap σ) (zones.Records rRSet) →
  returns (removeRecords rRSet culls) σ
    (λ rr σ',
       rr = set_Records rRSet (zones.Records rr)
       ∧ length (sread (heap σ') (zones.Records rr))
         ≤ length (sread (heap σ) (zones.Records rRSet))
       ∧ (∀ v, v ∈ sread (heap σ') (zones.Records rr) →
               v ∈ sread (heap σ) (zones.Records rRSet))
       ∧ (sread (heap σ') (zones.Records rr) = []
          ∨ head (sread (heap σ') (zones.Records rr))
            = head (sread (heap σ) (zones.Records rRSet)))).
Proof.
  intros Hok. destruct (zones.Records rRSet) as [|b o l c] eqn:Hrecs.
  - assert (∀ culls σ, removeRecords rRSet culls σ = Some (rRSet, σ)) as Hnil.
    { clear -Hrecs. intros culls. revert rRSet Hrecs.
      induction culls as [|cull culls IH]; intros rRSet Hrecs σ; [done|].
      cbn [removeRecords]. unfold bind, deleteItem. rewrite Hrecs. cbn.
      rewrite <- Hrecs, set_Records_same. by apply IH. }
    exists rRSet, σ. split; [apply Hnil|]. rewrite Hrecs. cbn.
    split; [by rewrite <- Hrecs, set_Records_same|]. split; [done|]. split; [done|by left].
  - destruct Hok as (Hl & arr & Harr & Hc).
    eapply returns_mono;
      [by apply (removeRecords_window b o c l culls l rRSet σ arr)|].
    intros rr σ' (l' & -> & Hl' & W & L & F & arr_ & arr' & Ha & Ha' & Hlen & Hin & Hout & H0).
    rewrite Harr in Ha. injection Ha as <-.
    cbn [zones.Records set_Records sread]. unfold array. rewrite Harr, Ha'.
    cbn [from_option id].
    split; [done|]. split; [rewrite !length_take, !length_drop; lia|]. split.
    + intros v (j & Hj)%list_elem_of_lookup.
      rewrite lookup_take, lookup_drop in Hj. destruct (decide (j < l')); [|done].
      destruct (Hin j) as (j' & Hj' & E); [lia|]. rewrite E in Hj.
      apply list_elem_of_lookup. exists j'. by rewrite lookup_take_lt, lookup_drop.
    + destruct l' as [|l'']; [by left|]. right.
      rewrite !head_lookup, !lookup_take_lt, !lookup_drop, !Nat.add_0_r by lia. done.
Qed.

Lemma removeRecords_one_value rRSet cull σ :
  slice_ok (heap σ) (zones.Records rRSet) →
  returns (removeRecords rRSet [cull]) σ
    (λ rr σ',
       length (sread (heap σ') (zones.Records rr))
       = length (sread (heap σ) (zones.Records rRSet))
         - occurrences (libdns.Value cull) (sread (heap σ) (zones.Records rRSet))
       ∧ (slen (zones.Records rr) = 0
          ↔ Forall (λ v, zones.Content v = libdns.Value cull)
              (sread (heap σ) (zones.Records rRSet)))).
Proof.
  intros Hok. cbn [removeRecords]. apply returns_bind. unfold deleteItem.
  destruct (zones.Records rRSet) as [|b o l c] eqn:Hrecs.
  - cbn. apply returns_ret, returns_ret. cbn. split; [done|]. split; [by constructor|done].
  - destruct Hok as (Hl & arr & Harr & Hc). cbn [slen].
    eapply returns_mono; [by apply (deleteItem_loop_prunes _ b o c l l σ arr)|].
    intros recs σ1 (-> & W & L & F & arr_ & arr1 & Ha & Ha1 & Hlen & _).
    rewrite Harr in Ha. injection Ha as <-. apply returns_ret.
    cbn [zones.Records set_Records sread slen]. unfold array. rewrite Harr, Ha1.
    cbn [from_option id]. rewrite take_take, Nat.min_id.
    set (vals := take l (drop o arr)).
    assert (length vals = l) as Hvals.
    { unfold vals. rewrite length_take, length_drop. lia. }
    pose proof (occurrences_le (libdns.Value cull) vals) as Hocc.
    split; [rewrite length_take, length_drop; lia|].
    rewrite <- occurrences_all. lia.
Qed.

(** X9: asked to remove one value, [removeRecords] returns as many values as
    the set had that do not have that content; so it returns none exactly
    when every value of the set has it. *)
Theorem removeRecords_one_value_count rRSet cull σ :
  slice_ok (heap σ) (zones.Records rRSet) →
  returns (removeRecords rRSet [cull]) σ
    (λ rr σ',
       length (sread (heap σ') (zones.Records rr))
       = length (sread (heap σ) (zones.Records rRSet))
         - occurrences (libdns.Value cull) (sread (heap σ) (zones.Records rRSet))
       ∧ (slen (zones.Records rr) = 0
          ↔ Forall (λ v, zones.Content v = libdns.Value cull)
              (sread (heap σ) (zones.Records rRSet)))).
Proof. apply removeRecords_one_value. Qed.

Lemma deleteItem_loop_absent item n : ∀ recs σ,
  slice_ok (heap σ) recs → n ≤ slen recs →
  occurrences item (sread (heap σ) recs) = 0 →
  deleteItem_loop item n recs σ = Some (recs, σ).
Proof.
  induction n as [|i IH]; intros recs σ Hok Hn Hocc; [done|].
  cbn [deleteItem_loop]. unfold bind, index. rewrite decide_True by lia.
  assert (∃ x, sread (heap σ) recs !! i = Some x) as [x Hx].
  { apply lookup_lt_is_Some. rewrite slice_ok_length by done. lia. }
  rewrite Hx. cbn [from_option id].
  apply occurrences_none in Hocc. rewrite Forall_forall in Hocc.
  rewrite decide_False by (apply Hocc; by eapply list_elem_of_lookup_2).
  apply IH; [done | lia |]. by apply occurrences_none, Forall_forall.
Qed.

(** X10: asked to remove only values the set does not hold, [removeRecords]
    returns the record set as it is and writes nothing. *)
Theorem removeRecords_absent_values rRSet culls σ :
  slice_ok (heap σ) (zones.Records rRSet) →
  Forall (λ cull, occurrences (libdns.Value cull)
                    (sread (heap σ) (zones.Records rRSet)) = 0) culls →
  removeRecords rRSet culls σ = Some (rRSet, σ).
Proof.
  intros Hok Hall. induction Hall as [|cull culls Hc _ IH]; [done|].
  cbn [removeRecords]. unfold bind, deleteItem.
  rewrite deleteItem_loop_absent by done. by rewrite set_Records_same.
Qed.

End RemoveFacts.

(** ** [cullRRecs], descriptor by descriptor *)

Section CullShape.
Context {World : Type}.
Implicit Types (σ : state World).




Lemma cullRRecs_loop_shape inHash ts : ∀ rRSets σ,
  (∀ k b, inHash !! k = Some b → b ≠ []) →
  Forall (λ t, slen (zones.Records t) ≤ scap (zones.Records t)) ts →
  returns (cullRRecs_loop ts inHash rRSets) σ
    (λ out _, ∃ ds, out = rRSets ++ ds
                    ∧ Forall2 culled (filter (λ t, is_Some (inHash !! rrkey t)) ts) ds).
Proof.
  intros rRSets σ Hne. revert rRSets σ.
  induction ts as [|t ts IH]; intros rRSets σ Hwf; cbn [cullRRecs_loop].
  - apply returns_ret. exists []. by rewrite app_nil_r.
  - apply Forall_cons in Hwf as [Hwf_t Hwf].
    fold (rrkey t). destruct (inHash !! rrkey t) as [[|r0 rs]|] eqn:Hk.
    + by destruct (Hne _ _ Hk).
    + apply returns_bind. eapply returns_mono; [by apply removeRecords_returns|].
      intros rr σ1 _. cbn beta.
      eapply returns_mono; [by apply IH|].
      intros out σ2 (ds & -> & Hds). cbn beta.
      eexists (_ :: ds). split; [by rewrite <- app_assoc|].
      rewrite filter_cons_True by (by rewrite Hk). constructor; [|done].
      destruct (decide _); cbn; repeat (split; [done|]); [by left | by right].
    + eapply returns_mono; [by apply IH|].
      intros out σ1 (ds & -> & Hds). exists ds. split; [done|].
      by rewrite filter_cons_False by (rewrite Hk; by intros [? ?]).
Qed.

(** X6: [cullRRecs] returns one descriptor for every record set of the snapshot
    whose key has a bucket, in snapshot order, also when several record sets
    have the same key.  Each has the record set's name and type and no value
    list at all; it is either a DELETE with nothing else set, or a REPLACE
    with the record set's TTL and comments. *)
Theorem cullRRecs_descriptors fullZone records σ :
  zone_ok (heap σ) fullZone →
  returns (cullRRecs fullZone records) σ
    (λ out _,
       Forall2 culled
         (filter (λ t, is_Some (makeLDRecHash records !! rrkey t))
            (zones.ResourceRecordSets fullZone))
         out).
Proof.
  intros Hok. eapply returns_mono.
  - apply (cullRRecs_loop_shape _ _ [] σ (makeLDRecHash_nonempty records)).
    eapply Forall_impl; [exact Hok|]. intros t Ht. cbn beta in Ht.
    destruct (zones.Records t) as [|b o l c]; cbn in *; [lia | by destruct Ht].
  - intros out σ' (ds & -> & Hds). done.
Qed.


End CullShape.

(** ** [mergeRRecs], value by value *)

Lemma is_dupe_insert dupes c v :
  is_dupe (<[c := true]> dupes) v = true ↔ v = c ∨ is_dupe dupes v = true.
Proof.
  unfold is_dupe. rewrite lookup_insert. destruct (decide (c = v)) as [->|Hne]; cbn.
  - split; [by left | done].
  - split; [by right | by intros [->|?]].
Qed.

Lemma is_dupe_mark_existing precs : ∀ dupes v,
  is_dupe (mark_existing precs dupes) v = true
  ↔ v ∈ zones.Content <$> precs ∨ is_dupe dupes v = true.
Proof.
  unfold mark_existing.
  induction precs as [|p precs IH]; intros dupes v; cbn [foldl].
  - rewrite fmap_nil. split; [by right | intros [H|H]; [by apply not_elem_of_nil in H | done]].
  - rewrite IH, is_dupe_insert, fmap_cons, elem_of_cons. tauto.
Qed.

Lemma is_dupe_existing existing v :
  is_dupe (mark_existing existing ∅) v = true ↔ v ∈ zones.Content <$> existing.
Proof.
  rewrite is_dupe_mark_existing. unfold is_dupe. rewrite lookup_empty. cbn.
  split; [by intros [?|?] | by left].
Qed.

Lemma additions_spec recs : ∀ dupes,
  NoDup (zones.Content <$> additions dupes recs)
  ∧ additions dupes recs `sublist_of` (value_of <$> recs)
  ∧ (∀ v, v ∈ additions dupes recs → is_dupe dupes (zones.Content v) = false)
  ∧ (∀ r, r ∈ recs → is_dupe dupes (libdns.Value r) = false →
          value_of r ∈ additions dupes recs).
Proof.
  induction recs as [|rec recs IH]; intros dupes; cbn [additions].
  - split; [constructor|]. split; [done|]. split; intros ? H; by apply not_elem_of_nil in H.
  - rewrite fmap_cons. destruct (is_dupe dupes (libdns.Value rec)) eqn:Hd.
    + destruct (IH dupes) as (Hnd & Hsub & Hnew & Hall).
      split; [done|]. split; [by apply sublist_cons|]. split; [done|].
      intros r [->|Hr]%elem_of_cons Hr'; [congruence | by apply Hall].
    + destruct (IH (<[libdns.Value rec := true]> dupes)) as (Hnd & Hsub & Hnew & Hall).
      assert (∀ v, v ∈ additions (<[libdns.Value rec := true]> dupes) recs →
                   zones.Content v ≠ libdns.Value rec ∧ is_dupe dupes (zones.Content v) = false)
        as Hnew'.
      { intros v Hv. specialize (Hnew v Hv).
        destruct (is_dupe dupes (zones.Content v)) eqn:E.
        - assert (is_dupe (<[libdns.Value rec := true]> dupes) (zones.Content v) = true)
            as H by (apply is_dupe_insert; by right).
          congruence.
        - split; [|done]. intros Heq.
          assert (is_dupe (<[libdns.Value rec := true]> dupes) (zones.Content v) = true)
            as H by (apply is_dupe_insert; by left).
          congruence. }
      split; [|split; [by apply sublist_skip|split]].
      * rewrite fmap_cons. apply NoDup_cons. split; [|done].
        intros (v & Hc & Hv)%list_elem_of_fmap. cbn in Hc.
        destruct (Hnew' v Hv) as [Hne _]. congruence.
      * intros v [->|Hv]%elem_of_cons; [done|]. by apply Hnew'.
      * intros r [->|Hr]%elem_of_cons Hr'; [left|].
        destruct (decide (libdns.Value r = libdns.Value rec)) as [E|E].
        -- unfold value_of. rewrite E. left.
        -- right. apply Hall; [done|].
           destruct (is_dupe (<[libdns.Value rec := true]> dupes) (libdns.Value r)) eqn:E'; [|done].
           apply is_dupe_insert in E' as [?|?]; congruence.
Qed.

Lemma additions_merged_values existing bucket :
  merged_values existing bucket (additions (mark_existing existing ∅) bucket).
Proof.
  destruct (additions_spec bucket (mark_existing existing ∅)) as (Hnd & Hsub & Hnew & Hall).
  split; [done|]. split; [done|]. split.
  - intros v Hv Hin. apply is_dupe_existing in Hin. rewrite (Hnew v Hv) in Hin. done.
  - intros r Hr Hout. apply Hall; [done|].
    destruct (is_dupe _ _) eqn:E; [|done]. by apply is_dupe_existing in E.
Qed.

Lemma sread_empty h s : slen s = 0 → sread h s = [].
Proof. destruct s as [|b o l c]; [done|]. cbn. by intros ->. Qed.

Lemma merge_appended_prefix h0 h h' inHash t d :
  h `prefix_of` h' → merge_appended h0 h inHash t d → merge_appended h0 h' inHash t d.
Proof.
  intros Hp (Hok & bucket & Hb & Hr). split; [by eapply slice_ok_prefix|].
  exists bucket. split; [done|]. by rewrite (sread_prefix h h').
Qed.

Section MergeValues.
Context {World : Type}.
Variable growslack : nat → nat.
Variable range_order :
  gmap string (list libdns.Record_) → list (string * list libdns.Record_).
Implicit Types (σ : state World).

Lemma merge_additions_values recs : ∀ s dupes σ0 σ,
  extends σ0 σ → fresh (heap σ0) s → slice_ok (heap σ) s →
  returns (merge_additions growslack recs s dupes) σ
    (λ r σ', extends σ0 σ' ∧ slice_ok (heap σ') r.1
             ∧ sread (heap σ') r.1 = sread (heap σ) s ++ additions dupes recs).
Proof.
  induction recs as [|rec recs IH]; intros s dupes σ0 σ Hext Hf Hok;
    cbn [merge_additions additions].
  - apply returns_ret. by rewrite app_nil_r.
  - destruct (is_dupe dupes (libdns.Value rec)); [by apply IH|].
    apply returns_bind. eapply returns_mono; [by apply append_returns|].
    intros s1 σ1 (Hext1 & Hf1 & Hok1 & Hr1). cbn beta.
    eapply returns_mono; [by apply IH|].
    intros r σ2 (Hext2 & Hok2 & Hr2). cbn beta.
    split; [done|]. split; [done|]. by rewrite Hr2, Hr1, <- app_assoc.
Qed.

Lemma mergeRRecs_loop_values ts : ∀ inHash rrsets σ0 σ,
  (∀ k b, inHash !! k = Some b → b ≠ []) →
  extends σ0 σ →
  Forall (λ t, slice_ok (heap σ0) (zones.Records t)) ts →
  returns (mergeRRecs_loop growslack ts inHash rrsets) σ
    (λ r σ', extends σ σ'
             ∧ ∃ matched,
                 r.1 = rrsets ++ matched
                 ∧ Forall2 (merge_appended (heap σ0) (heap σ') inHash)
                     (filter (λ t, is_Some (inHash !! rrkey t)) (first_per_key ts))
                     matched).
Proof.
  induction ts as [|t ts IH]; intros inHash rrsets σ0 σ Hne Hext0 Hok;
    cbn [mergeRRecs_loop].
  - apply returns_ret. split; [apply extends_refl|]. exists []. by rewrite app_nil_r.
  - apply Forall_cons in Hok as [Hok_t Hok].
    fold (rrkey t). destruct (inHash !! rrkey t) as [[|r0 rs]|] eqn:Hk.
    + by destruct (Hne _ _ Hk).
    + apply returns_bind. eapply returns_mono; [apply make_returns|].
      intros s0 σ1 (Hext1 & Hf1 & Hok1 & Hlen0). cbn beta.
      apply returns_bind. cbn [zones.Records set_Records].
      eapply returns_mono; [by apply (copy_returns s0 _ σ σ1)|].
      intros ? σ2 (Hext2 & Hok2). cbn beta.
      apply returns_bind. eexists _, _. split; [reflexivity|].
      apply returns_bind.
      eapply returns_mono;
        [by apply (merge_additions_values (r0 :: rs) s0 _ σ σ2)|].
      intros [s dupes] σ3 (Hext3 & Hok3 & Hr3). cbn beta iota.
      cbn [fst] in Hok3, Hr3. rewrite (sread_empty _ s0), app_nil_l in Hr3 by done.
      rewrite (sread_prefix (heap σ0) (heap σ2)) in Hr3;
        [|by apply (extends_trans σ0 σ σ2)|done].
      eapply returns_mono.
      { apply (IH (delete (rrkey t) inHash) _ σ0 σ3); [|by eapply extends_trans|done].
        intros k b Hb. apply lookup_delete_Some in Hb as [_ Hb]. by eapply Hne. }
      intros [out rest] σ4 (Hext4 & matched & Hout & Hall).
      cbn [fst snd first_per_key] in *.
      split; [by eapply extends_trans|].
      eexists (_ :: matched). split; [by rewrite Hout, <- app_assoc|].
      rewrite filter_cons_True by (by rewrite Hk). constructor.
      * apply (merge_appended_prefix _ (heap σ3)); [apply Hext4|].
        split; [done|]. by exists (r0 :: rs).
      * rewrite list_filter_filter.
        erewrite list_filter_iff; [eapply Forall2_impl; [exact Hall|]|].
        -- intros t' d' (? & b' & Hb & ?). apply lookup_delete_Some in Hb as [_ Hb].
           split; [done|]. by exists b'.
        -- intros t'. cbn. rewrite lookup_delete_is_Some.
           split; intros [? ?]; split; congruence.
    + eapply returns_mono; [by apply IH|].
      intros [out rest] σ1 (Hext1 & matched & Hout & Hall).
      cbn [fst snd first_per_key] in *.
      split; [done|]. exists matched. split; [done|].
      rewrite filter_cons_False by (rewrite Hk; by intros [? ?]).
      rewrite list_filter_filter.
      erewrite list_filter_iff; [exact Hall|].
      intros t'. cbn. split; [by intros [? _]|].
      intros [x Hx]. split; [by exists x|]. intros E. rewrite E, Hk in Hx. done.
Qed.

(** X3: what [mergeRRecs] puts into the descriptor of a matched record set
    (the first with its key whose key has a bucket): the values of the
    bucket, in the bucket's order and without repeating a content, that the
    record set does not hold already.  No value the record set holds is
    among them. *)
Theorem mergeRRecs_matched_values fullZone records σ :
  zone_ok (heap σ) fullZone →
  returns (mergeRRecs growslack range_order fullZone records) σ
    (λ r σ',
       ∃ matched created,
         r.1 = matched ++ created
         ∧ Forall2
             (λ t d, ∃ bucket,
                  makeLDRecHash records !! rrkey t = Some bucket
                  ∧ merged_values (sread (heap σ) (zones.Records t)) bucket
                      (sread (heap σ') (zones.Records d)))
             (filter (λ t, is_Some (makeLDRecHash records !! rrkey t))
                (first_per_key (zones.ResourceRecordSets fullZone)))
             matched).
Proof.
  intros Hok. unfold mergeRRecs. apply returns_bind.
  eapply returns_mono.
  { apply (mergeRRecs_loop_values _ _ [] σ σ (makeLDRecHash_nonempty records));
      [apply extends_refl | exact Hok]. }
  intros [rrsets rest] σ1 (Hext1 & matched & Hrr & Hall). cbn beta iota.
  cbn [fst] in Hrr. rewrite app_nil_l in Hrr. subst rrsets.
  apply returns_bind. eapply returns_mono; [apply convertHash_loop_returns|].
  intros created0 σ2 (Hext2 & created & -> & _). apply returns_ret. cbn [fst].
  exists matched, created. split; [by rewrite app_nil_l|].
  eapply Forall2_impl; [exact Hall|].
  intros t d Htd. apply (merge_appended_prefix _ _ (heap σ2)) in Htd; [|apply Hext2].
  destruct Htd as (_ & bucket & Hb & ->). exists bucket. split; [done|].
  apply additions_merged_values.
Qed.

End MergeValues.

(** ** Grouping, and the planners on nothing *)

(** X1: [makeLDRecHash] keeps every record, in the bucket of its key and in
    arrival order, duplicates included: the bucket of a key is the list of
    the records with that key as they came; a key no record has is not in
    the map, so no bucket is empty. *)
Theorem makeLDRecHash_buckets records k :
  (makeLDRecHash records !! k = None ↔ ∀ r, r ∈ records → reckey r ≠ k)
  ∧ (∀ bucket, makeLDRecHash records !! k = Some bucket →
       bucket = filter (λ r, reckey r = k) records ∧ bucket ≠ [])
  ∧ (∀ r, r ∈ records → reckey r = k →
       ∃ bucket, makeLDRecHash records !! k = Some bucket ∧ r ∈ bucket).
Proof.
  split; [apply makeLDRecHash_None|]. split.
  - intros bucket H. by apply makeLDRecHash_Some in H as [? ?].
  - intros r Hr Hk. exists (filter (λ r, reckey r = k) records).
    assert (r ∈ filter (λ r, reckey r = k) records) as Hin
      by (by apply list_elem_of_filter).
    split; [|done]. apply makeLDRecHash_Some. split; [|done].
    intros E. rewrite E in Hin. by apply not_elem_of_nil in Hin.
Qed.

Section EmptyInput.
Context {World : Type}.
Variable growslack : nat → nat.
Variable range_order :
  gmap string (list libdns.Record_) → list (string * list libdns.Record_).
Hypothesis range_order_perm : ∀ m, range_order m ≡ₚ map_to_list m.
Implicit Types (σ : state World).

(** X4: with no desired records [mergeRRecs] returns no descriptor and a
    [nil] error and writes nothing, whatever the snapshot holds. *)
Theorem mergeRRecs_no_records fullZone σ :
  mergeRRecs growslack range_order fullZone [] σ = Some (([], None), σ).
Proof.
  unfold mergeRRecs, bind. rewrite mergeRRecs_loop_no_match.
  - unfold convertHash. cbn.
    assert (range_order ∅ = []) as ->; [|done].
    apply Permutation_nil_r. by rewrite range_order_perm, map_to_list_empty.
  - apply Forall_forall. intros t _. apply lookup_empty.
Qed.

End EmptyInput.

Lemma mergeRRecs_no_records_witness :
  mergeRRecs (λ n, n) map_to_list Examples.www_zone []
    (Examples.store tt Examples.www_values)
  = Some (([], None), Examples.store tt Examples.www_values).
Proof. apply (mergeRRecs_no_records (λ n, n) map_to_list (λ m, reflexivity _)). Defined.

(** ** The mutating operations when every step succeeds *)

Section Echo.
Context {World : Type}.
Variable growslack : nat → nat.
Variable range_order :
  gmap string (list libdns.Record_) → list (string * list libdns.Record_).
Variable pdns_New : string → string → library_result (ZonesClient World).
Implicit Types (σ : state World).

Lemma updateRRs_all_ok cl zid ds :
  (∀ d σ, ∃ σ', AddRecordSetToZone (Zones cl) (sID cl) zid d σ = Some (None, σ')) →
  ∀ σ, ∃ σ', updateRRs cl zid ds σ = Some (None, σ').
Proof.
  intros Hadd. induction ds as [|d ds IH]; intros σ; [by exists σ|].
  cbn [updateRRs]. unfold bind. destruct (Hadd d σ) as (σ1 & ->). apply IH.
Qed.

(** X15: when the client is there, the zone is fetched and the server accepts
    every descriptor, [AppendRecords], [SetRecords] and [DeleteRecords] do
    not panic and return the records they were given, as given: not what was
    merged, and for the removal also the values the zone never held. *)
Theorem mutations_echo_records p cl p' zone records σ pZone σ1 :
  client pdns_New p = (Ok cl, p') →
  fullZone cl zone σ = Some (Ok pZone, σ1) →
  zone_ok (heap σ1) pZone →
  (∀ zid d σ, ∃ σ', AddRecordSetToZone (Zones cl) (sID cl) zid d σ = Some (None, σ')) →
  (∃ σ', AppendRecords growslack range_order pdns_New p zone records σ
         = Some ((Ok records, p'), σ'))
  ∧ (∃ σ', SetRecords growslack range_order pdns_New p zone records σ
           = Some ((Ok records, p'), σ'))
  ∧ (∃ σ', DeleteRecords pdns_New p zone records σ = Some ((Ok records, p'), σ')).
Proof.
  intros Hc Hfull Hok Hadd. split; [|split].
  - unfold AppendRecords. rewrite Hc. unfold bind at 1. rewrite Hfull.
    destruct (mergeRRecs_extends growslack range_order pZone records σ1)
      as ([ds err] & σ2 & Hrun & Herr & _). cbn in Herr. subst err.
    unfold bind at 1. rewrite Hrun. unfold bind.
    destruct (updateRRs_all_ok cl (zones.ID pZone) ds (Hadd _) σ2) as (σ3 & ->).
    by exists σ3.
  - unfold SetRecords. rewrite Hc.
    assert (∃ z σz, shortZone cl zone σ = Some (Ok z, σz)) as (z & σz & Hshort).
    { unfold fullZone, bind in Hfull.
      destruct (shortZone cl zone σ) as [[[z|e] σz]|]; [by eauto|done..]. }
    unfold zoneID, bind at 1 2. rewrite Hshort. cbn.
    destruct (convertHash_loop_returns growslack
                (range_order (makeLDRecHash records)) [] σz)
      as (ds & σ2 & Hconv & _).
    unfold bind at 1, convertHash. rewrite Hconv. unfold bind.
    destruct (updateRRs_all_ok cl (zones.ID z) ds (Hadd _) σ2) as (σ3 & ->).
    by exists σ3.
  - unfold DeleteRecords. rewrite Hc. unfold bind at 1. rewrite Hfull.
    destruct (cullRRecs_loop_returns (makeLDRecHash records)
                (zones.ResourceRecordSets pZone) [] σ1) as (ds & σ2 & Hrun & _).
    { eapply Forall_impl; [exact Hok|]. intros t Ht. cbn beta in Ht.
      destruct (zones.Records t) as [|b o l c]; cbn in *; [lia | by destruct Ht]. }
    unfold bind at 1, cullRRecs. rewrite Hrun. unfold bind.
    destruct (updateRRs_all_ok cl (zones.ID pZone) ds (Hadd _) σ2) as (σ3 & ->).
    by exists σ3.
Qed.

Lemma updateRRs_same_calls sid lz gz gz' add zid ds (σ : state World) :
  updateRRs (mkClient sid (mkZonesClient lz gz add)) zid ds σ
  = updateRRs (mkClient sid (mkZonesClient lz gz' add)) zid ds σ.
Proof.
  revert σ. induction ds as [|d ds IH]; intros σ; [done|].
  cbn [updateRRs Zones sID AddRecordSetToZone]. unfold bind.
  destruct (add sid zid d σ) as [[[e|] σ1]|]; [done| |done]. apply IH.
Qed.

(** X16: [SetRecords] never fetches the zone: with a client that differs only in
    what [GetZone] would answer, it gives the same result and leaves the
    same state. *)
Theorem SetRecords_ignores_GetZone url id token sid lz gz gz' add zone records σ :
  let p := mkProvider url id token (Some (mkClient sid (mkZonesClient lz gz add))) in
  let p' := mkProvider url id token (Some (mkClient sid (mkZonesClient lz gz' add))) in
  (λ x, (x.1.1, x.2)) <$> SetRecords growslack range_order pdns_New p zone records σ
  = (λ x, (x.1.1, x.2)) <$> SetRecords growslack range_order pdns_New p' zone records σ.
Proof.
  intros p p'. unfold SetRecords, client, p, p'. cbn [c].
  unfold zoneID, shortZone, bind. cbn [Zones sID ListZone].
  destruct (lz sid zone σ) as [[[pzones|e] σ1]|]; [|done..].
  destruct (decide (length pzones ≠ 1)); [done|].
  destruct pzones as [|z pzones]; [done|]. cbn.
  destruct (convertHash _ _ _ σ1) as [[ds σ2]|]; [|done].
  rewrite (updateRRs_same_calls sid lz gz gz' add).
  destruct (updateRRs _ _ _ σ2) as [[[e|] σ3]|]; done.
Qed.

End Echo.

(** ** [convertHash] on any map *)

Section ConvertAny.
Context {World : Type}.
Variable growslack : nat → nat.
Variable range_order :
  gmap string (list libdns.Record_) → list (string * list libdns.Record_).
Implicit Types (σ : state World).


End ConvertAny.

(** ** The further properties at concrete inputs *)

Lemma mail_zone_ok :
  zone_ok (heap (Examples.store tt Examples.mail_values)) Examples.mail_zone.
Proof.
  unfold zone_ok. constructor; [|constructor]. cbn. split; [lia|].
  eexists. split; [reflexivity|]. cbn. lia.
Defined.

Lemma mail_set_ok :
  slice_ok (heap (Examples.store tt Examples.mail_values))
    (zones.Records Examples.mail_set).
Proof. cbn. split; [lia|]. eexists. split; [reflexivity|]. cbn. lia. Defined.

Lemma updateRRs_first_failure_aborts_witness :
  updateRRs
    (mkClient "localhost"
       (mkZonesClient (λ _ _, ret (Ok [])) (λ _ _, ret (Err "none"))
          (λ _ _ d, ret (if decide (zones.Name d = "bad") then Some "refused" else None))))
    "1"
    ([Examples.mail_set]
       ++ set_ChangeType (zones.mkResourceRecordSet "bad" "A" 0 zones.ChangeTypeUnset
                            nil_slice []) zones.ChangeTypeReplace
       :: [Examples.mail_set])
    (Examples.store tt [])
  = Some (Some (LibraryError "refused"), Examples.store tt []).
Proof.
  apply (updateRRs_first_failure_aborts _ "1" [Examples.mail_set] _ [Examples.mail_set]
           (Examples.store tt []) (Examples.store tt []) "refused" (Examples.store tt []));
    reflexivity.
Defined.

Lemma client_is_cached_witness :
  ServerURL (client ExampleServer.pdns_New ExampleServer.provider).2
  = "http://localhost:8081"
  ∧ client (λ _ _, Err "unreachable")
      (client ExampleServer.pdns_New ExampleServer.provider).2
    = (Ok (mkClient "localhost" ExampleServer.zc),
       (client ExampleServer.pdns_New ExampleServer.provider).2).
Proof.
  destruct (client_is_cached ExampleServer.pdns_New (λ _ _, Err "unreachable")
              ExampleServer.provider _ _ eq_refl) as (Hurl & _ & _ & _ & Hagain).
  split; [exact Hurl | exact Hagain].
Defined.

Lemma removeRecords_keeps_first_value_witness :
  returns (removeRecords Examples.mail_set [Examples.desired "mail" "MX" "a" 0])
    (Examples.store tt Examples.mail_values)
    (λ rr σ',
       rr = set_Records Examples.mail_set (zones.Records rr)
       ∧ length (sread (heap σ') (zones.Records rr))
         ≤ length (sread (heap (Examples.store tt Examples.mail_values))
                     (zones.Records Examples.mail_set))
       ∧ (∀ v, v ∈ sread (heap σ') (zones.Records rr) →
               v ∈ sread (heap (Examples.store tt Examples.mail_values))
                     (zones.Records Examples.mail_set))
       ∧ (sread (heap σ') (zones.Records rr) = []
          ∨ head (sread (heap σ') (zones.Records rr))
            = head (sread (heap (Examples.store tt Examples.mail_values))
                      (zones.Records Examples.mail_set)))).
Proof. apply removeRecords_keeps_first_value, mail_set_ok. Defined.

Lemma removeRecords_one_value_count_witness :
  returns (removeRecords Examples.mail_set [Examples.desired "mail" "MX" "a" 0])
    (Examples.store tt Examples.mail_values)
    (λ rr σ',
       length (sread (heap σ') (zones.Records rr))
       = length (sread (heap (Examples.store tt Examples.mail_values))
                   (zones.Records Examples.mail_set))
         - occurrences "a" (sread (heap (Examples.store tt Examples.mail_values))
                              (zones.Records Examples.mail_set))
       ∧ (slen (zones.Records rr) = 0
          ↔ Forall (λ v, zones.Content v = "a")
              (sread (heap (Examples.store tt Examples.mail_values))
                 (zones.Records Examples.mail_set)))).
Proof.
  apply (removeRecords_one_value_count Examples.mail_set
           (Examples.desired "mail" "MX" "a" 0)), mail_set_ok.
Defined.

Lemma removeRecords_absent_values_witness :
  removeRecords Examples.mail_set [Examples.desired "mail" "MX" "c" 0]
    (Examples.store tt Examples.mail_values)
  = Some (Examples.mail_set, Examples.store tt Examples.mail_values).
Proof.
  apply removeRecords_absent_values; [apply mail_set_ok|].
  constructor; [reflexivity | constructor].
Defined.


Lemma cullRRecs_descriptors_witness :
  returns (cullRRecs Examples.mail_zone [Examples.desired "mail" "MX" "a" 0])
    (Examples.store tt Examples.mail_values)
    (λ out _,
       Forall2 culled
         (filter (λ t, is_Some (makeLDRecHash [Examples.desired "mail" "MX" "a" 0]
                                !! rrkey t))
            (zones.ResourceRecordSets Examples.mail_zone))
         out).
Proof. apply cullRRecs_descriptors, mail_zone_ok. Defined.


Lemma mergeRRecs_matched_values_witness :
  returns (mergeRRecs (λ n, n) map_to_list Examples.mail_zone
             [Examples.desired "mail" "MX" "a" 0; Examples.desired "mail" "MX" "c" 0])
    (Examples.store tt Examples.mail_values)
    (λ r σ',
       ∃ matched created,
         r.1 = matched ++ created
         ∧ Forall2
             (λ t d, ∃ bucket,
                  makeLDRecHash [Examples.desired "mail" "MX" "a" 0;
                                 Examples.desired "mail" "MX" "c" 0] !! rrkey t
                  = Some bucket
                  ∧ merged_values
                      (sread (heap (Examples.store tt Examples.mail_values))
                         (zones.Records t))
                      bucket (sread (heap σ') (zones.Records d)))
             (filter (λ t, is_Some (makeLDRecHash [Examples.desired "mail" "MX" "a" 0;
                                                   Examples.desired "mail" "MX" "c" 0]
                                    !! rrkey t))
                (first_per_key (zones.ResourceRecordSets Examples.mail_zone)))
             matched).
Proof. apply mergeRRecs_matched_values, mail_zone_ok. Defined.

Lemma mutations_echo_records_witness :
  (∃ σ', AppendRecords (λ n, n) map_to_list ExampleServer.pdns_New ExampleServer.provider
           "example.org." [Examples.desired "www" "A" "2.2.2.2" 300000000000]
           (Examples.store tt Examples.www_values)
         = Some ((Ok [Examples.desired "www" "A" "2.2.2.2" 300000000000],
                  mkProvider "http://localhost:8081" "localhost" "secret"
                    (Some (mkClient "localhost" ExampleServer.zc))), σ'))
  ∧ (∃ σ', SetRecords (λ n, n) map_to_list ExampleServer.pdns_New ExampleServer.provider
             "example.org." [Examples.desired "www" "A" "2.2.2.2" 300000000000]
             (Examples.store tt Examples.www_values)
           = Some ((Ok [Examples.desired "www" "A" "2.2.2.2" 300000000000],
                    mkProvider "http://localhost:8081" "localhost" "secret"
                      (Some (mkClient "localhost" ExampleServer.zc))), σ'))
  ∧ (∃ σ', DeleteRecords ExampleServer.pdns_New ExampleServer.provider
             "example.org." [Examples.desired "www" "A" "2.2.2.2" 300000000000]
             (Examples.store tt Examples.www_values)
           = Some ((Ok [Examples.desired "www" "A" "2.2.2.2" 300000000000],
                    mkProvider "http://localhost:8081" "localhost" "secret"
                      (Some (mkClient "localhost" ExampleServer.zc))), σ')).
Proof.
  apply (mutations_echo_records (λ n, n) map_to_list ExampleServer.pdns_New
           ExampleServer.provider (mkClient "localhost" ExampleServer.zc) _
           "example.org." _ (Examples.store tt Examples.www_values)
           Examples.www_zone (Examples.store tt Examples.www_values)).
  - reflexivity.
  - reflexivity.
  - unfold zone_ok. constructor; [|constructor]. cbn. split; [lia|].
    eexists. split; [reflexivity|]. cbn. lia.
  - intros zid d σ. exists σ. reflexivity.
Defined.
